(** * xstate-ts-to-mermaid: a shallow embedding of src/index.ts

    JavaScript strings are sequences of UTF-16 code units; they are modelled
    as [list Z], so that [length], [substring] and [startsWith] count and cut
    code units exactly as the source does.  The external graph builder
    ([toDirectedGraph] of @xstate/graph) is not part of the repository: the
    model takes its output, a tree of [DirectedGraphNode]s, as input. *)

From Stdlib Require Import ZArith String Ascii Bool Lia List.
Import ListNotations.
Open Scope Z_scope.

(** ** Strings *)

Definition jstr := list Z.

(** An ASCII literal as UTF-16 code units. *)
Definition lit (s : string) : jstr :=
  map (fun a => Z.of_nat (nat_of_ascii a)) (list_ascii_of_string s).

Definition jstr_eq_dec : forall a b : jstr, {a = b} + {a <> b} :=
  list_eq_dec Z.eq_dec.

(** [Set.prototype.has] over string keys. *)
Definition mem (k : jstr) (l : list jstr) : bool :=
  if in_dec jstr_eq_dec k l then true else false.

(** JavaScript truthiness of a string. *)
Definition truthy (s : jstr) : bool :=
  match s with [] => false | _ => true end.

(** [s.startsWith(p)]. *)
Fixpoint startsWith (s p : jstr) {struct p} : bool :=
  match p with
  | [] => true
  | c :: p' => match s with
               | d :: s' => (c =? d) && startsWith s' p'
               | [] => false
               end
  end.

(** [s.includes(p)], used to state what a diagram text contains. *)
Fixpoint includes (s p : jstr) : bool :=
  startsWith s p || match s with [] => false | _ :: s' => includes s' p end.

(** [parts.join(sep)]. *)
Fixpoint join (sep : jstr) (l : list jstr) : jstr :=
  match l with
  | [] => []
  | [x] => x
  | x :: l' => x ++ sep ++ join sep l'
  end.

(** [s.split(c)] for a one-code-unit separator. *)
Fixpoint split_on (c : Z) (s : jstr) : list jstr :=
  match s with
  | [] => [[]]
  | d :: s' =>
      if d =? c then [] :: split_on c s'
      else match split_on c s' with
           | p :: ps => (d :: p) :: ps
           | [] => [[d]]
           end
  end.

(** [" ".repeat(n)]-style repetition. *)
Fixpoint repeat_str (s : jstr) (n : nat) : jstr :=
  match n with O => [] | S n' => s ++ repeat_str s n' end.

Definition c_dot : Z := 46.
Definition c_colon : Z := 58.
Definition is_digit (c : Z) : bool := (48 <=? c) && (c <=? 57).

(** Non-ASCII glyphs of the source, as UTF-16 code units. *)
Definition g_lock : jstr := [55357; 56594].      (* U+1F512, a surrogate pair *)
Definition g_bolt : jstr := [9889].              (* U+26A1 *)
Definition g_fisheye : jstr := [9673].           (* U+25C9 *)
Definition g_separator : jstr := repeat 9472%Z 11. (* eleven U+2500 *)

(** ** getStateName (index.ts 35-38) *)

Definition getStateName (id : jstr) : jstr :=
  last (split_on c_dot id) [].

(** ** formatEventName (index.ts 45-53)

    [event.match(/xstate\.after\.(\d+)\./)]: the regular expression is not
    anchored, so the engine tries every start position from the left; at a
    position it matches the literal prefix, then [\d+] greedily, giving
    digits back one by one until a ['.'] follows. *)

Definition after_prefix : jstr := lit "xstate.after.".

Fixpoint digit_run (s : jstr) : nat :=
  match s with
  | d :: s' => if is_digit d then S (digit_run s') else O
  | [] => O
  end.

(** Try [\d{n}\.] for [n] from the greedy count down to 1. *)
Fixpoint backtrack (n : nat) (rest : jstr) : option jstr :=
  match n with
  | O => None
  | S n' =>
      match nth_error rest n with
      | Some d => if d =? c_dot then Some (firstn n rest) else backtrack n' rest
      | None => backtrack n' rest
      end
  end.

Definition match_at (s : jstr) : option jstr :=
  if startsWith s after_prefix then
    let rest := skipn (length after_prefix) s in
    backtrack (digit_run rest) rest
  else None.

(** [match[1]] of the leftmost match, if any. *)
Fixpoint regex_after (s : jstr) : option jstr :=
  match match_at s with
  | Some g => Some g
  | None => match s with [] => None | _ :: s' => regex_after s' end
  end.

Definition formatEventName (event : jstr) : jstr :=
  if startsWith event after_prefix then
    match regex_after event with
    | Some n => lit "after " ++ n ++ lit "ms"
    | None => event
    end
  else event.

(** ** escapeMermaidText (index.ts 59-61): [text.replace(/:/g, ' -')] *)

Definition escapeMermaidText (text : jstr) : jstr :=
  flat_map (fun c => if c =? c_colon then lit " -" else [c]) text.

(** ** Data model (the fields of a [DirectedGraphNode] that index.ts reads) *)

(** An action object; [a.type] is absent for inline function actions. *)
Definition action := option jstr.

Record invoke_def := mkInvoke { inv_src : jstr; inv_id : jstr }.

(** [stateNode.meta], as cast at index.ts 95: [{ invariants?: string[] }];
    its other keys are kept as key/value text. *)
Record meta_obj := mkMeta {
  invariants : option (list jstr);
  meta_other : list (jstr * jstr)
}.

Record state_node := mkStateNode {
  description : option jstr;
  tags : list jstr;
  meta : option meta_obj;
  entry : option (list action);
  exit : option (list action);
  invoke : option (list invoke_def);
  initial : option jstr            (* a string [initial], if any *)
}.

(** [edge.transition] as cast at index.ts 237: the guard is [guard?.type]. *)
Record transition := mkTransition {
  eventType : jstr;
  guard : option jstr;
  actions : option (list action)
}.

(** [edge.source.id], [edge.target.id], [edge.transition]. *)
Record edge := mkEdge { source_id : jstr; target_id : jstr; etrans : transition }.

Set Warnings "-register-all".

Inductive node := Node {
  node_id : jstr;
  stateNode : state_node;
  edges : list edge;
  children : list node
}.

(** The input of both entry points: [machine.config.initial] (when it is a
    string) and the graph [toDirectedGraph(machine)]. *)
Record machine := mkMachine { config_initial : option jstr; digraph : node }.

Record MermaidOptions := mkOptions {
  title : option jstr;
  maxDescriptionLength : option Z;
  includeGuards : option bool;
  includeActions : option bool;
  includeEntryActions : option bool;
  includeInvokes : option bool;
  includeInvariants : option bool
}.

Definition default_options : MermaidOptions :=
  mkOptions None None None None None None None.

(** [x ?? d] *)
Definition dflt {A} (o : option A) (d : A) : A :=
  match o with Some x => x | None => d end.

Definition opt_truthy (o : option jstr) : bool :=
  match o with Some s => truthy s | None => false end.

(** Induction over the tree, with the hypothesis on every child. *)
Section node_rect.
Variable P : node -> Prop.
Hypothesis Hnode : forall i sn es cs, Forall P cs -> P (Node i sn es cs).
Fixpoint node_ind' (n : node) : P n :=
  match n with
  | Node i sn es cs =>
      Hnode i sn es cs
        ((fix go (l : list node) : Forall P l :=
            match l with
            | [] => Forall_nil P
            | c :: l' => Forall_cons c (node_ind' c) (go l')
            end) cs)
  end.
End node_rect.

(** ** Field extractors (index.ts 66-97) *)

Definition xstate_prefix : jstr := lit "xstate.".

(** [t && !t.startsWith('xstate.')] *)
Definition user_action (t : jstr) : bool :=
  truthy t && negb (startsWith t xstate_prefix).

(** [.map(a => a.type).filter(t => t && !t.startsWith('xstate.'))] *)
Fixpoint action_names (l : list action) : list jstr :=
  match l with
  | [] => []
  | Some t :: l' => if user_action t then t :: action_names l' else action_names l'
  | None :: l' => action_names l'
  end.

Definition getDescription (n : node) : option jstr :=
  match description (stateNode n) with
  | Some d => if truthy d then Some (escapeMermaidText d) else None
  | None => None
  end.

Definition getEntryActions (n : node) : list jstr :=
  match entry (stateNode n) with
  | Some l => action_names l
  | None => []
  end.

Definition getInvokes (n : node) : list invoke_def :=
  dflt (invoke (stateNode n)) [].

Definition getInvariants (n : node) : list jstr :=
  match meta (stateNode n) with
  | Some m => dflt (invariants m) []
  | None => []
  end.

(** ** formatTransitionLabel (index.ts 103-125) *)

Definition formatTransitionLabel (t : transition) (includeGuards includeActions : bool)
  : jstr :=
  let label := formatEventName (eventType t) in
  let label :=
    if includeGuards && opt_truthy (guard t)
    then label ++ lit " IF " ++ dflt (guard t) [] else label in
  match actions t with
  | Some acts =>
      if includeActions && (0 <? Z.of_nat (length acts)) then
        let actionNames := action_names acts in
        if 0 <? Z.of_nat (length actionNames)
        then label ++ lit "<br/>" ++ g_bolt ++ lit " " ++ join (lit ", ") actionNames
        else label
      else label
  | None => label
  end.

(** ** buildStateLabel (index.ts 135-185) *)

Definition label_lines (name : jstr) (desc : option jstr) (invs entry : list jstr)
  (invokes : list invoke_def) : list jstr :=
  [lit "<b>" ++ name ++ lit "</b>"]
  ++ (if opt_truthy desc then [dflt desc []] else [])
  ++ map (fun inv => g_lock ++ lit " " ++ inv) invs
  ++ (if 0 <? Z.of_nat (length entry) then
        [g_separator; lit "<b><i>Entry actions</i></b>"]
        ++ map (fun a => g_bolt ++ lit " " ++ a) entry
      else [])
  ++ (if 0 <? Z.of_nat (length invokes) then
        [g_separator; lit "<b><i>Invoke</i></b>"]
        ++ flat_map (fun i => [g_fisheye ++ lit " " ++ inv_src i;
                               lit "Actor ID - " ++ inv_id i]) invokes
      else []).

(** [text.length > maxLen] then [text.substring(0, maxLen) + "..."] *)
Definition truncate (maxLen : Z) (text : jstr) : jstr :=
  if (0 <? maxLen) && (maxLen <? Z.of_nat (length text))
  then firstn (Z.to_nat maxLen) text ++ lit "..."
  else text.

Definition buildStateLabel (name : jstr) (desc : option jstr) (invs entry : list jstr)
  (invokes : list invoke_def) (maxLen : Z) : jstr :=
  truncate maxLen (join (lit "<br/>") (label_lines name desc invs entry invokes)).

(** ** Output lines

    Every [lines.push] of the walkers pushes one template string; a line is
    kept as the constructor of its template and [render] spells the template
    out.  [k] is the indentation level: the line starts with ["    "] [k]
    times. *)

Inductive line :=
| LHeader                                   (* "stateDiagram-v2" *)
| LTitle (t : jstr)                         (* "    %% <t>" *)
| LInitial (k : nat) (s : jstr)             (* "[*] --> <s>" *)
| LState (k : nat) (name label : jstr)      (* "<name>: <label>" *)
| LEdge (k : nat) (src tgt label : jstr)    (* "<src> --> <tgt>: <label>" *)
| LOpen (k : nat) (name : jstr)             (* "state <name> {" *)
| LClose (k : nat)                          (* "}" *)
| LNote (k : nat) (name text : jstr).       (* "note right of <name>: <text>" *)

Definition pad (k : nat) : jstr := repeat_str (lit "    ") k.

Definition render (l : line) : jstr :=
  match l with
  | LHeader => lit "stateDiagram-v2"
  | LTitle t => lit "    %% " ++ t
  | LInitial k s => pad k ++ lit "[*] --> " ++ s
  | LState k n lbl => pad k ++ n ++ lit ": " ++ lbl
  | LEdge k s t lbl => pad k ++ s ++ lit " --> " ++ t ++ lit ": " ++ lbl
  | LOpen k n => pad k ++ lit "state " ++ n ++ lit " {"
  | LClose k => pad k ++ lit "}"
  | LNote k n t => pad k ++ lit "note right of " ++ n ++ lit ": " ++ t
  end.

(** [lines.join("\n")] *)
Definition to_text (ls : list line) : jstr := join [10] (map render ls).

(** The option-derived constants of both entry points
    (index.ts 198-213 and 277-281). *)
Record Cfg := mkCfg {
  maxLen : Z;
  incGuards : bool;
  incActions : bool;
  incEntry : bool;
  incInvoke : bool;
  incInvariants : bool
}.

Definition cfg_of (o : MermaidOptions) : Cfg :=
  mkCfg (dflt (maxDescriptionLength o) 0)
        (dflt (includeGuards o) true) (dflt (includeActions o) true)
        (dflt (includeEntryActions o) true) (dflt (includeInvokes o) true)
        (dflt (includeInvariants o) true).

(** The lines both entry points push before walking the graph. *)
Definition preamble (m : machine) (o : MermaidOptions) : list line :=
  [LHeader]
  ++ (if opt_truthy (title o) then [LTitle (dflt (title o) [])] else [])
  ++ (if opt_truthy (config_initial m) then [LInitial 1 (dflt (config_initial m) [])]
      else []).

Section Walkers.
Variable cfg : Cfg.

Definition edge_label (e : edge) : jstr :=
  formatTransitionLabel (etrans e) (incGuards cfg) (incActions cfg).

(** The label of a node's own state line (index.ts 216-231, 290-334). *)
Definition state_label (n : node) : jstr :=
  let name := getStateName (node_id n) in
  let desc := getDescription n in
  let ent := if incEntry cfg then getEntryActions n else [] in
  let invs := if incInvoke cfg then getInvokes n else [] in
  let invariants := if incInvariants cfg then getInvariants n else [] in
  let hasContent :=
    opt_truthy desc || (0 <? Z.of_nat (length invariants))
    || (0 <? Z.of_nat (length ent)) || (0 <? Z.of_nat (length invs)) in
  if hasContent then buildStateLabel name desc invariants ent invs (maxLen cfg)
  else name.

(** *** Flat walker (toMermaid, index.ts 190-265) *)

Record FlatSt := mkFlatSt {
  f_lines : list line;
  seenEdges : list jstr;
  seenStates : list jstr
}.

(** [`${sourceName}:${targetName}:${t.eventType}`] *)
Definition flat_key (e : edge) : jstr :=
  getStateName (source_id e) ++ [c_colon] ++ getStateName (target_id e)
  ++ [c_colon] ++ eventType (etrans e).

Definition flat_edge (st : FlatSt) (e : edge) : FlatSt :=
  let key := flat_key e in
  if mem key (seenEdges st) then st
  else mkFlatSt
         (f_lines st ++ [LEdge 1 (getStateName (source_id e))
                                 (getStateName (target_id e)) (edge_label e)])
         (key :: seenEdges st) (seenStates st).

Definition flat_edges (es : list edge) (st : FlatSt) : FlatSt :=
  fold_left flat_edge es st.

Definition flat_state (n : node) (st : FlatSt) : FlatSt :=
  let name := getStateName (node_id n) in
  if mem name (seenStates st) then st
  else mkFlatSt (f_lines st ++ [LState 1 name (state_label n)])
                (seenEdges st) (name :: seenStates st).

Fixpoint collectAll (n : node) (st : FlatSt) {struct n} : FlatSt :=
  fold_left (fun st c => collectAll c st) (children n)
    (flat_edges (edges n) (flat_state n st)).

(** [for (const child of cs) collectAll(child)] *)
Definition collect_list (cs : list node) (st : FlatSt) : FlatSt :=
  fold_left (fun st c => collectAll c st) cs st.
End Walkers.

Definition toMermaid_lines (m : machine) (o : MermaidOptions) : list line :=
  let cfg := cfg_of o in
  let st0 := mkFlatSt (preamble m o) [] [] in
  let st1 := flat_edges cfg (edges (digraph m)) st0 in
  f_lines (collect_list cfg (children (digraph m)) st1).

Definition toMermaid (m : machine) (o : MermaidOptions) : jstr :=
  to_text (toMermaid_lines m o).

(** *** Nested walker (toMermaidNested, index.ts 270-359) *)

Section NestedWalker.
Variable cfg : Cfg.

Record NestSt := mkNestSt { n_lines : list line; processedEdges : list jstr }.

(** [`${edge.source.id}->${edge.target.id}:${t.eventType}`] *)
Definition nest_key (e : edge) : jstr :=
  source_id e ++ lit "->" ++ target_id e ++ [c_colon] ++ eventType (etrans e).

Definition nest_edge (k : nat) (st : NestSt) (e : edge) : NestSt :=
  let key := nest_key e in
  if mem key (processedEdges st) then st
  else mkNestSt
         (n_lines st ++ [LEdge k (getStateName (source_id e))
                                 (getStateName (target_id e)) (edge_label cfg e)])
         (key :: processedEdges st).

Definition nest_edges (k : nat) (es : list edge) (st : NestSt) : NestSt :=
  fold_left (nest_edge k) es st.

Definition push (l : line) (st : NestSt) : NestSt :=
  mkNestSt (n_lines st ++ [l]) (processedEdges st).

Fixpoint processNode (n : node) (indent : nat) (st : NestSt) {struct n} : NestSt :=
  let name := getStateName (node_id n) in
  match children n with
  | [] => push (LState indent name (state_label cfg n)) st
  | cs =>
      let st := push (LOpen indent name) st in
      let st := if opt_truthy (initial (stateNode n))
                then push (LInitial (S indent) (dflt (initial (stateNode n)) [])) st
                else st in
      let st := fold_left (fun st c => processNode c (S indent) st) cs st in
      let st := nest_edges (S indent) (edges n) st in
      let st := push (LClose indent) st in
      match getDescription n with
      | Some d => if truthy d
                  then push (LNote indent name (truncate (maxLen cfg) d)) st
                  else st
      | None => st
      end
  end.

(** [for (const child of cs) processNode(child, indent)] *)
Definition process_list (cs : list node) (indent : nat) (st : NestSt) : NestSt :=
  fold_left (fun st c => processNode c indent st) cs st.
End NestedWalker.

Definition toMermaidNested_lines (m : machine) (o : MermaidOptions) : list line :=
  let cfg := cfg_of o in
  let st0 := mkNestSt (preamble m o) [] in
  let st1 := process_list cfg (children (digraph m)) 1 st0 in
  n_lines (nest_edges cfg 1 (edges (digraph m)) st1).

Definition toMermaidNested (m : machine) (o : MermaidOptions) : jstr :=
  to_text (toMermaidNested_lines m o).

(** ** Sample machines *)

(** The flat machine of the repository's nested-coverage test.  As built by
    [toDirectedGraph], each node's [edges] are its own outgoing transitions. *)
Definition mk_leaf (id : jstr) (es : list edge) : node :=
  Node id (mkStateNode None [] None None None None None) es [].

Definition plain_edge (src tgt ev : jstr) : edge :=
  mkEdge src tgt (mkTransition ev None (Some [])).

Definition flatMachine : machine :=
  mkMachine (Some (lit "stopped"))
    (Node (lit "flat") (mkStateNode None [] None None None None (Some (lit "stopped"))) []
      [ mk_leaf (lit "flat.stopped")
          [plain_edge (lit "flat.stopped") (lit "flat.running") (lit "START")]
      ; mk_leaf (lit "flat.running")
          [plain_edge (lit "flat.running") (lit "flat.healthy") (lit "HEALTH_PASS");
           plain_edge (lit "flat.running") (lit "flat.failed") (lit "HEALTH_FAIL")]
      ; mk_leaf (lit "flat.healthy")
          [plain_edge (lit "flat.healthy") (lit "flat.failed") (lit "HEALTH_FAIL")]
      ; mk_leaf (lit "flat.failed")
          [plain_edge (lit "flat.failed") (lit "flat.stopped") (lit "RECOVER")] ]).

(** A machine with a single state [s] declaring every optional field, and a
    single transition [GO] carrying a guard and an action. *)
Definition full_state : state_node :=
  mkStateNode (Some (lit "FIELD_DESCRIPTION_CHECK"))
    [lit "TAG_CHECK"; lit "category"]
    (Some (mkMeta None [(lit "customKey", lit "FIELD_META_CHECK")]))
    (Some [Some (lit "onEnter")])
    (Some [Some (lit "onExit")])
    (Some [mkInvoke (lit "someService") (lit "FIELD_INVOKE_CHECK")])
    None.

Definition fullMachine : machine :=
  mkMachine (Some (lit "s"))
    (Node (lit "m") (mkStateNode None [] None None None None (Some (lit "s"))) []
      [Node (lit "m.s") full_state
         [mkEdge (lit "m.s") (lit "m.s")
            (mkTransition (lit "GO") (Some (lit "isValid"))
               (Some [Some (lit "transitionAction")]))] []]).

(** Two edges whose flat dedup keys coincide: [a:b --E--> c] and
    [a --E--> b:c] both give the key ["a:b:c:E"]. *)
Definition collidingMachine : machine :=
  mkMachine None
    (Node (lit "m") (mkStateNode None [] None None None None None) []
      [ mk_leaf (lit "m.a:b") [plain_edge (lit "m.a:b") (lit "m.c") (lit "E")]
      ; mk_leaf (lit "m.c") []
      ; mk_leaf (lit "m.a") [plain_edge (lit "m.a") (lit "m.b:c") (lit "E")]
      ; mk_leaf (lit "m.b:c") [] ]).

(** Two distinct state nodes, [m.p.x] and [m.q.x], with the short name [x]. *)
Definition shadowMachine : machine :=
  mkMachine (Some (lit "p"))
    (Node (lit "m") (mkStateNode None [] None None None None (Some (lit "p"))) []
      [ Node (lit "m.p") (mkStateNode None [] None None None None (Some (lit "x"))) []
          [Node (lit "m.p.x") (mkStateNode (Some (lit "first")) [] None None None None None)
             [] []]
      ; Node (lit "m.q") (mkStateNode None [] None None None None (Some (lit "x"))) []
          [Node (lit "m.q.x") (mkStateNode (Some (lit "second")) [] None None None None None)
             [] []] ]).

(** ** Internal actions removed from every action list *)

Definition reserved (a : action) : bool :=
  match a with Some t => startsWith t xstate_prefix | None => false end.

Definition strip_list (l : option (list action)) : option (list action) :=
  option_map (filter (fun a => negb (reserved a))) l.

Definition strip_sn (sn : state_node) : state_node :=
  mkStateNode (description sn) (tags sn) (meta sn) (strip_list (entry sn))
    (strip_list (exit sn)) (invoke sn) (initial sn).

Definition strip_edge (e : edge) : edge :=
  mkEdge (source_id e) (target_id e)
    (mkTransition (eventType (etrans e)) (guard (etrans e)) (strip_list (actions (etrans e)))).

Fixpoint strip_node (n : node) : node :=
  Node (node_id n) (strip_sn (stateNode n)) (map strip_edge (edges n))
    (map strip_node (children n)).

Definition strip_machine (m : machine) : machine :=
  mkMachine (config_initial m) (strip_node (digraph m)).

(** ** Traversal order and the state lines of the flat output *)

Fixpoint preorder (n : node) : list node :=
  n :: flat_map preorder (children n).

(** The nodes kept by a seen-set keyed by short name: the first of each. *)
Fixpoint first_by_name (seen : list jstr) (l : list node) : list node :=
  match l with
  | [] => []
  | n :: l' =>
      let name := getStateName (node_id n) in
      if mem name seen then first_by_name seen l'
      else n :: first_by_name (name :: seen) l'
  end.

Fixpoint state_lines (ls : list line) : list (jstr * jstr) :=
  match ls with
  | [] => []
  | LState _ n lbl :: ls' => (n, lbl) :: state_lines ls'
  | _ :: ls' => state_lines ls'
  end.

(** ** Fields erased from every node and transition *)

Fixpoint map_fields (fs : state_node -> state_node) (ft : transition -> transition)
  (n : node) : node :=
  Node (node_id n) (fs (stateNode n))
    (map (fun e => mkEdge (source_id e) (target_id e) (ft (etrans e))) (edges n))
    (map (map_fields fs ft) (children n)).

Definition map_machine (fs : state_node -> state_node) (ft : transition -> transition)
  (m : machine) : machine :=
  mkMachine (config_initial m) (map_fields fs ft (digraph m)).

Definition erase_guard (t : transition) : transition :=
  mkTransition (eventType t) None (actions t).

Definition erase_actions (t : transition) : transition :=
  mkTransition (eventType t) (guard t) None.

Definition erase_entry (sn : state_node) : state_node :=
  mkStateNode (description sn) (tags sn) (meta sn) None (exit sn) (invoke sn) (initial sn).

Definition erase_invoke (sn : state_node) : state_node :=
  mkStateNode (description sn) (tags sn) (meta sn) (entry sn) (exit sn) None (initial sn).

Definition erase_meta (sn : state_node) : state_node :=
  mkStateNode (description sn) (tags sn) None (entry sn) (exit sn) (invoke sn) (initial sn).

(** Drops the state fields no walker reads: the tags, the exit actions and
    every meta key but [invariants]. *)
Definition erase_unread (sn : state_node) : state_node :=
  mkStateNode (description sn) []
    (option_map (fun mo => mkMeta (invariants mo) []) (meta sn))
    (entry sn) None (invoke sn) (initial sn).

(** ** Edge lines of an output, and the traversal orders of the walkers *)

Fixpoint edge_lines (ls : list line) : list (jstr * jstr * jstr) :=
  match ls with
  | [] => []
  | LEdge _ s t lbl :: ls' => (s, t, lbl) :: edge_lines ls'
  | _ :: ls' => edge_lines ls'
  end.

(** The edge line an edge gives: short source, short target and label. *)
Definition edge_row (cfg : Cfg) (e : edge) : jstr * jstr * jstr :=
  (getStateName (source_id e), getStateName (target_id e), edge_label cfg e).

(** The edges of a seen-set keyed by [key]: the first of each key. *)
Fixpoint first_by_key (key : edge -> jstr) (seen : list jstr) (l : list edge) : list edge :=
  match l with
  | [] => []
  | e :: l' =>
      if mem (key e) seen then first_by_key key seen l'
      else e :: first_by_key key (key e :: seen) l'
  end.

Fixpoint keys_after (key : edge -> jstr) (seen : list jstr) (l : list edge) : list jstr :=
  match l with
  | [] => seen
  | e :: l' => if mem (key e) seen then keys_after key seen l'
               else keys_after key (key e :: seen) l'
  end.

(** The order in which toMermaid meets edges: the root's, then each node's
    own edges in pre-order. *)
Definition flat_edge_order (m : machine) : list edge :=
  edges (digraph m) ++ flat_map edges (flat_map preorder (children (digraph m))).

(** The edges toMermaidNested looks at under a node: those of the compound
    nodes below it, a compound node's after its children's. *)
Fixpoint nested_edges_of (n : node) : list edge :=
  match children n with
  | [] => []
  | cs => flat_map nested_edges_of cs ++ edges n
  end.

Definition nested_edge_order (m : machine) : list edge :=
  flat_map nested_edges_of (children (digraph m)) ++ edges (digraph m).

(** The leaves under a node, in pre-order. *)
Fixpoint leaves (n : node) : list node :=
  match children n with
  | [] => [n]
  | cs => flat_map leaves cs
  end.

(** Container brackets: [LOpen k] as [(true, k)], [LClose k] as [(false, k)]. *)
Fixpoint brackets (ls : list line) : list (bool * nat) :=
  match ls with
  | [] => []
  | LOpen k _ :: ls' => (true, k) :: brackets ls'
  | LClose k :: ls' => (false, k) :: brackets ls'
  | _ :: ls' => brackets ls'
  end.

(** Every close matches the innermost open container, at its indentation. *)
Fixpoint matched (stack : list nat) (bs : list (bool * nat)) : bool :=
  match bs with
  | [] => match stack with [] => true | _ => false end
  | (true, k) :: r => matched (k :: stack) r
  | (false, k) :: r =>
      match stack with
      | k' :: s => Nat.eqb k k' && matched s r
      | [] => false
      end
  end.

Fixpoint tree_brackets (n : node) (k : nat) : list (bool * nat) :=
  match children n with
  | [] => []
  | cs => (true, k) :: flat_map (fun c => tree_brackets c (S k)) cs ++ [(false, k)]
  end.

(** ** The entry points with their per-call state

    Each call of [toMermaid] runs [new Set<string>()] twice ([seenEdges],
    [seenStates], index.ts 196-197) and each call of [toMermaidNested] once
    ([processedEdges], 276); the closures [collectAll] and [processNode]
    capture those sets and update them with [has] and [add].  Here the
    sets are objects of a heap, next to the machine the caller passed: a
    [World].  A set lives at an address (its index in [w_sets]);
    [new Set] appends an empty one.  [lines] is a local array, so it is
    kept in the walker state. *)

(** [l[n] = v] on an allocated address. *)
Fixpoint set_nth {A} (n : nat) (v : A) (l : list A) : list A :=
  match l, n with
  | [], _ => []
  | _ :: l', O => v :: l'
  | x :: l', S n' => x :: set_nth n' v l'
  end.

Record World := mkWorld { w_machine : machine; w_sets : list (list jstr) }.

(** [new Set<string>()] *)
Definition new_set (w : World) : nat * World :=
  (length (w_sets w), mkWorld (w_machine w) (w_sets w ++ [[]])).

(** [set.has(k)] *)
Definition set_has (w : World) (a : nat) (k : jstr) : bool :=
  mem k (nth a (w_sets w) []).

(** [set.add(k)] *)
Definition set_add (w : World) (a : nat) (k : jstr) : World :=
  if set_has w a k then w
  else mkWorld (w_machine w) (set_nth a (k :: nth a (w_sets w) []) (w_sets w)).

Record HSt := mkHSt { h_lines : list line; h_world : World }.

Section HeapFlat.
Variable cfg : Cfg.
Variables ea sa : nat.               (* the addresses of seenEdges and seenStates *)

Definition h_flat_edge (st : HSt) (e : edge) : HSt :=
  let key := flat_key e in
  if set_has (h_world st) ea key then st
  else mkHSt (h_lines st ++ [LEdge 1 (getStateName (source_id e))
                                    (getStateName (target_id e)) (edge_label cfg e)])
             (set_add (h_world st) ea key).

Definition h_flat_state (n : node) (st : HSt) : HSt :=
  let name := getStateName (node_id n) in
  if set_has (h_world st) sa name then st
  else mkHSt (h_lines st ++ [LState 1 name (state_label cfg n)])
             (set_add (h_world st) sa name).

Fixpoint h_collectAll (n : node) (st : HSt) {struct n} : HSt :=
  fold_left (fun st c => h_collectAll c st) (children n)
    (fold_left h_flat_edge (edges n) (h_flat_state n st)).
End HeapFlat.

(** The body of [toMermaid] once its two sets sit at [ea] and [sa]. *)
Definition run_flat (ea sa : nat) (o : MermaidOptions) (w : World) : jstr * World :=
  let cfg := cfg_of o in
  let m := w_machine w in
  let st0 := mkHSt (preamble m o) w in
  let st1 := fold_left (h_flat_edge cfg ea) (edges (digraph m)) st0 in
  let st2 := fold_left (fun st c => h_collectAll cfg ea sa c st) (children (digraph m)) st1 in
  (to_text (h_lines st2), h_world st2).

(** A call [toMermaid(machine, options)]: the text and the world after it. *)
Definition call_toMermaid (o : MermaidOptions) (w : World) : jstr * World :=
  let (ea, w1) := new_set w in
  let (sa, w2) := new_set w1 in
  run_flat ea sa o w2.

Definition h_push (l : line) (st : HSt) : HSt :=
  mkHSt (h_lines st ++ [l]) (h_world st).

Section HeapNested.
Variable cfg : Cfg.
Variable pa : nat.                   (* the address of processedEdges *)

Definition h_nest_edge (k : nat) (st : HSt) (e : edge) : HSt :=
  let key := nest_key e in
  if set_has (h_world st) pa key then st
  else mkHSt (h_lines st ++ [LEdge k (getStateName (source_id e))
                                    (getStateName (target_id e)) (edge_label cfg e)])
             (set_add (h_world st) pa key).

Fixpoint h_processNode (n : node) (indent : nat) (st : HSt) {struct n} : HSt :=
  let name := getStateName (node_id n) in
  match children n with
  | [] => h_push (LState indent name (state_label cfg n)) st
  | cs =>
      let st := h_push (LOpen indent name) st in
      let st := if opt_truthy (initial (stateNode n))
                then h_push (LInitial (S indent) (dflt (initial (stateNode n)) [])) st
                else st in
      let st := fold_left (fun st c => h_processNode c (S indent) st) cs st in
      let st := fold_left (h_nest_edge (S indent)) (edges n) st in
      let st := h_push (LClose indent) st in
      match getDescription n with
      | Some d => if truthy d
                  then h_push (LNote indent name (truncate (maxLen cfg) d)) st
                  else st
      | None => st
      end
  end.
End HeapNested.

(** The body of [toMermaidNested] once its set sits at [pa]. *)
Definition run_nested (pa : nat) (o : MermaidOptions) (w : World) : jstr * World :=
  let cfg := cfg_of o in
  let m := w_machine w in
  let st0 := mkHSt (preamble m o) w in
  let st1 := fold_left (fun st c => h_processNode cfg pa c 1 st) (children (digraph m)) st0 in
  let st2 := fold_left (h_nest_edge cfg pa 1) (edges (digraph m)) st1 in
  (to_text (h_lines st2), h_world st2).

(** A call [toMermaidNested(machine, options)]. *)
Definition call_toMermaidNested (o : MermaidOptions) (w : World) : jstr * World :=
  let (pa, w1) := new_set w in
  run_nested pa o w1.

(** The heap a pure walker state stands for, over a world [w0]. *)
Definition flat_embed (w0 : World) (ea sa : nat) (fs : FlatSt) : HSt :=
  mkHSt (f_lines fs)
        (mkWorld (w_machine w0) (set_nth sa (seenStates fs) (set_nth ea (seenEdges fs) (w_sets w0)))).

Definition nest_embed (w0 : World) (pa : nat) (ns : NestSt) : HSt :=
  mkHSt (n_lines ns) (mkWorld (w_machine w0) (set_nth pa (processedEdges ns) (w_sets w0))).

(** * Properties *)

(** ** Helper lemmas *)

Lemma startsWith_app (p s : jstr) : startsWith (p ++ s) p = true.
Proof. induction p as [|c p IH]; simpl; [reflexivity | now rewrite Z.eqb_refl, IH]. Qed.

Lemma mem_spec (k : jstr) (l : list jstr) : mem k l = true <-> In k l.
Proof. unfold mem; destruct (in_dec jstr_eq_dec k l); split; congruence. Qed.

Lemma mem_false (k : jstr) (l : list jstr) : mem k l = false <-> ~ In k l.
Proof. unfold mem; destruct (in_dec jstr_eq_dec k l); split; congruence. Qed.

Lemma digit_run_digits (ds r : jstr) :
  forallb is_digit ds = true -> digit_run (ds ++ c_dot :: r) = length ds.
Proof.
  intros Hd; induction ds as [|d ds IH]; simpl in *.
  - reflexivity.
  - apply andb_prop in Hd as [Hd1 Hd2]; rewrite Hd1, IH; auto.
Qed.

Lemma nth_error_after (ds r : jstr) : nth_error (ds ++ c_dot :: r) (length ds) = Some c_dot.
Proof. induction ds; simpl; auto. Qed.

Lemma firstn_after (ds r : jstr) : firstn (length ds) (ds ++ c_dot :: r) = ds.
Proof. induction ds; simpl; f_equal; auto. Qed.

Lemma skipn_prefix (p x : jstr) : skipn (length p) (p ++ x) = x.
Proof. induction p; simpl; auto. Qed.

Lemma regex_after_first (s g : jstr) : match_at s = Some g -> regex_after s = Some g.
Proof. intros H; destruct s; cbn [regex_after]; now rewrite H. Qed.

Lemma match_at_delay (ds rest : jstr) :
  ds <> [] -> forallb is_digit ds = true ->
  match_at (after_prefix ++ ds ++ c_dot :: rest) = Some ds.
Proof.
  intros Hne Hd; unfold match_at; rewrite startsWith_app, skipn_prefix.
  rewrite digit_run_digits by exact Hd.
  assert (Hl : exists n, length ds = S n)
    by (destruct ds; [congruence | eexists; reflexivity]).
  destruct Hl as [n Hn]; rewrite Hn; cbn [backtrack].
  rewrite <- Hn, nth_error_after, Z.eqb_refl, firstn_after; reflexivity.
Qed.

(** A well-formed delay identifier is rendered [after <N>ms] with the raw
    digits of [N]. *)
Lemma formatEventName_delay (ds rest : jstr) :
  ds <> [] -> forallb is_digit ds = true ->
  formatEventName (after_prefix ++ ds ++ c_dot :: rest) = lit "after " ++ ds ++ lit "ms".
Proof.
  intros Hne Hd; unfold formatEventName.
  rewrite startsWith_app, (regex_after_first _ _ (match_at_delay ds rest Hne Hd)).
  reflexivity.
Qed.

(** An identifier without the [xstate.after.] prefix is left unchanged. *)
Lemma formatEventName_other (ev : jstr) :
  startsWith ev after_prefix = false -> formatEventName ev = ev.
Proof. intros H; unfold formatEventName; now rewrite H. Qed.

Lemma escape_no_colon (d : jstr) : ~ In c_colon (escapeMermaidText d).
Proof.
  unfold escapeMermaidText; rewrite in_flat_map; intros (y & _ & Hy).
  destruct (y =? c_colon) eqn:E.
  - simpl in Hy; unfold c_colon in *; lia.
  - destruct Hy as [Hy|[]]; subst; now rewrite Z.eqb_refl in E.
Qed.

Lemma escape_nonempty (d : jstr) : d <> [] -> escapeMermaidText d <> [].
Proof.
  destruct d as [|y d]; [congruence|]; intros _; unfold escapeMermaidText; simpl.
  destruct (y =? c_colon); simpl; discriminate.
Qed.

(** ** C1: field coverage *)

(** C1 (code_bug).  For [fullMachine], whose single state declares a
    description, tags, meta, entry actions, exit actions and an invoked
    actor, and whose single transition has a guard and an action, the flat
    output renders the description, the entry action, the invoked actor, the
    guard and the transition action, but the exit action [onExit], the tags
    [TAG_CHECK] and [category], and the meta key [customKey] with its value
    [FIELD_META_CHECK] appear nowhere in the text. *)
Theorem C1_exit_tags_meta_dropped :
  let out := toMermaid fullMachine default_options in
  includes out (lit "FIELD_DESCRIPTION_CHECK") = true /\
  includes out (lit "Entry actions") = true /\ includes out (lit "onEnter") = true /\
  includes out (lit "someService") = true /\ includes out (lit "FIELD_INVOKE_CHECK") = true /\
  includes out (lit "IF isValid") = true /\ includes out (lit "transitionAction") = true /\
  includes out (lit "onExit") = false /\ includes out (lit "Exit actions") = false /\
  includes out (lit "TAG_CHECK") = false /\ includes out (lit "category") = false /\
  includes out (lit "customKey") = false /\ includes out (lit "FIELD_META_CHECK") = false.
Proof. vm_compute; repeat split. Qed.

(** ** C2: every reachable edge exactly once *)

(** C2 (code_bug).  In [collidingMachine] both edges [a:b --E--> c] and
    [a --E--> b:c] are in the graph, but their flat dedup keys are the same
    string ["a:b:c:E"], so the flat output contains the first edge line and
    no line for the edge [a --> b:c]. *)
Theorem C2_colliding_edge_dropped :
  let es := flat_map edges (children (digraph collidingMachine)) in
  In (plain_edge (lit "m.a") (lit "m.b:c") (lit "E")) es /\
  flat_key (plain_edge (lit "m.a:b") (lit "m.c") (lit "E"))
    = flat_key (plain_edge (lit "m.a") (lit "m.b:c") (lit "E")) /\
  includes (toMermaid collidingMachine default_options) (lit "a:b --> c: E") = true /\
  includes (toMermaid collidingMachine default_options) (lit "a --> b:c") = false.
Proof. split; [simpl; tauto | vm_compute; repeat split]. Qed.

(** ** C3: nested mode on a machine without compound states *)

(** C3 (code_bug).  On the repository's flat test machine (four leaf states,
    five transitions), the flat output has all five transition lines and the
    nested output has none of them: a leaf's own edges are never emitted by
    [processNode]. *)
Theorem C3_nested_drops_leaf_edges :
  let flat := toMermaid flatMachine default_options in
  let nest := toMermaidNested flatMachine default_options in
  includes flat (lit "    stopped --> running: START") = true /\
  includes flat (lit "    running --> healthy: HEALTH_PASS") = true /\
  includes flat (lit "    running --> failed: HEALTH_FAIL") = true /\
  includes flat (lit "    healthy --> failed: HEALTH_FAIL") = true /\
  includes flat (lit "    failed --> stopped: RECOVER") = true /\
  includes nest (lit "stopped --> running") = false /\
  includes nest (lit "running --> healthy") = false /\
  includes nest (lit "running --> failed") = false /\
  includes nest (lit "healthy --> failed") = false /\
  includes nest (lit "failed --> stopped") = false /\
  includes nest (lit "state ") = false.
Proof. vm_compute; repeat split. Qed.

(** ** C4: delay-event formatting *)

(** C4 (code_bug).  [xstate.after.myDelay.xstate.after.5.x] starts with the
    delay prefix but its delay component [myDelay] is not numeric; the
    unanchored regular expression finds a later match, and the identifier is
    rendered [after 5ms] instead of being returned unchanged. *)
Theorem C4_unanchored_delay_match :
  formatEventName (lit "xstate.after.myDelay.xstate.after.5.x") = lit "after 5ms".
Proof. vm_compute; reflexivity. Qed.

(** ** C5: truncation boundary *)

(** C5.  With [L > 0], an assembled state label longer than [L] code units
    is cut to its first [L] code units followed by ["..."]; with [L = 0] it
    is returned in full. *)
Theorem C5_truncation_boundary :
  forall name desc invs ent invokes (L : Z),
    let text := join (lit "<br/>") (label_lines name desc invs ent invokes) in
    (0 < L -> L < Z.of_nat (length text) ->
       buildStateLabel name desc invs ent invokes L
         = firstn (Z.to_nat L) text ++ lit "..." /\
       length (firstn (Z.to_nat L) text) = Z.to_nat L) /\
    buildStateLabel name desc invs ent invokes 0 = text.
Proof.
  intros name desc invs ent invokes L text; split.
  - intros HL Hlen; unfold buildStateLabel, truncate; fold text.
    replace ((0 <? L) && (L <? Z.of_nat (length text))) with true
      by (symmetry; apply andb_true_intro; split; apply Z.ltb_lt; assumption).
    split; [reflexivity|].
    rewrite firstn_length_le; [reflexivity | lia].
  - reflexivity.
Qed.

(** C5 (witness): a nine-code-unit label cut at three. *)
Lemma C5_truncation_boundary_witness :
  buildStateLabel (lit "s") (Some (lit "abcdef")) [] [] [] 3 = lit "<b>..." /\
  length (firstn 3 (join (lit "<br/>") (label_lines (lit "s") (Some (lit "abcdef")) [] [] [])))
    = 3%nat.
Proof.
  apply (proj1 (C5_truncation_boundary (lit "s") (Some (lit "abcdef")) [] [] [] 3));
    [lia | vm_compute; reflexivity].
Defined.

(** ** C6: transition-label emphasis *)

(** C6 (counterexample).  The label of a plain [GO] transition is the bare
    text [GO], and the label of a delay transition is the bare text
    [after 5000ms]: no emphasis markup at all. *)
Lemma C6_no_emphasis :
  formatTransitionLabel (mkTransition (lit "GO") None None) true true = lit "GO" /\
  formatTransitionLabel (mkTransition (lit "xstate.after.5000.order.validating") None (Some []))
    true true = lit "after 5000ms" /\
  includes (toMermaid fullMachine default_options) (lit "<b>GO") = false.
Proof. vm_compute; repeat split. Qed.

(** C6 (amended).  A transition label is the event name exactly as
    [formatEventName] renders it, unemphasized, followed by nothing, by the
    guard suffix [" IF <guard>"], or by the action suffix ["<br/>..."]. *)
Theorem C6_plain_event_prefix :
  forall t incG incA, exists rest,
    formatTransitionLabel t incG incA = formatEventName (eventType t) ++ rest /\
    (rest = [] \/ startsWith rest (lit " IF ") = true \/ startsWith rest (lit "<br/>") = true).
Proof.
  intros t incG incA; unfold formatTransitionLabel.
  set (ev := formatEventName (eventType t)).
  destruct (incG && opt_truthy (guard t)); destruct (actions t) as [acts|];
    repeat match goal with |- context [if ?b then _ else _] => destruct b end;
    first
      [ exists []; rewrite app_nil_r; split; [reflexivity | now left]
      | eexists; split;
        [ rewrite <- ?app_assoc; reflexivity
        | right; rewrite <- ?app_assoc;
          first [left; apply startsWith_app | right; apply startsWith_app] ] ].
Qed.

(** ** C8: colon text-safety of descriptions *)

(** C8 (counterexample).  A state node whose declared description is the
    empty string gets no description back: [desc ? ... : undefined] treats
    [""] as absent, while the claim has the (escaped, empty) description
    returned. *)
Lemma C8_empty_description_absent :
  let n := Node (lit "m.s") (mkStateNode (Some []) [] None None None None None) [] [] in
  getDescription n = None /\ getDescription n <> Some (escapeMermaidText []).
Proof. simpl; split; [reflexivity | discriminate]. Qed.

(** C8 (amended).  For a node with a declared non-empty description,
    [getDescription] returns the description with every colon replaced by
    [" -"]; the result is non-empty and has no colon.  For a node with no
    description, or the empty one, it returns the absent value. *)
Theorem C8_description_escaped :
  forall n,
    match description (stateNode n) with
    | Some d =>
        if truthy d then
          getDescription n = Some (escapeMermaidText d) /\
          ~ In c_colon (escapeMermaidText d) /\ escapeMermaidText d <> []
        else getDescription n = None
    | None => getDescription n = None
    end.
Proof.
  intros n; unfold getDescription.
  destruct (description (stateNode n)) as [d|]; [|reflexivity].
  destruct d as [|c d]; cbn [truthy]; [reflexivity|].
  split; [reflexivity|]; split; [apply escape_no_colon | apply escape_nonempty; discriminate].
Qed.

(** ** C9: two calls give the same text *)

Lemma length_set_nth {A} (n : nat) (v : A) (l : list A) : length (set_nth n v l) = length l.
Proof. revert n; induction l as [|x l IH]; intros [|n]; simpl; auto. Qed.

Lemma nth_set_nth_eq {A} (n : nat) (v d : A) (l : list A) : (n < length l)%nat -> nth n (set_nth n v l) d = v.
Proof.
  revert n; induction l as [|x l IH]; intros [|n] H; simpl in *; try lia; auto.
  apply IH; lia.
Qed.

Lemma nth_set_nth_ne {A} (n m : nat) (v d : A) (l : list A) : n <> m -> nth m (set_nth n v l) d = nth m l d.
Proof.
  revert n m; induction l as [|x l IH]; intros [|n] [|m] H; simpl; auto; try lia;
    apply IH; lia.
Qed.

Lemma set_nth_twice {A} (n : nat) (u v : A) (l : list A) : set_nth n v (set_nth n u l) = set_nth n v l.
Proof. revert n; induction l as [|x l IH]; intros [|n]; simpl; f_equal; auto. Qed.

Lemma set_nth_comm {A} (n m : nat) (u v : A) (l : list A) :
  n <> m -> set_nth n v (set_nth m u l) = set_nth m u (set_nth n v l).
Proof.
  revert n m; induction l as [|x l IH]; intros [|n] [|m] H; simpl; auto; try lia;
    f_equal; apply IH; lia.
Qed.

Lemma set_nth_nth {A} (n : nat) (d : A) (l : list A) : set_nth n (nth n l d) l = l.
Proof. revert n; induction l as [|x l IH]; intros [|n]; simpl; f_equal; auto. Qed.

Lemma set_nth_id {A} (n : nat) (v d : A) (l : list A) : nth n l d = v -> set_nth n v l = l.
Proof. intros <-; apply set_nth_nth. Qed.

Section FlatSim.
Variable cfg : Cfg.
Variable w0 : World.
Variables ea sa : nat.
Hypothesis Hea : (ea < length (w_sets w0))%nat.
Hypothesis Hsa : (sa < length (w_sets w0))%nat.
Hypothesis Hne : ea <> sa.

Lemma has_edges_embed fs k :
  set_has (h_world (flat_embed w0 ea sa fs)) ea k = mem k (seenEdges fs).
Proof.
  unfold set_has, flat_embed; cbn [h_world w_sets].
  rewrite nth_set_nth_ne by congruence; rewrite nth_set_nth_eq by exact Hea; reflexivity.
Qed.

Lemma has_states_embed fs k :
  set_has (h_world (flat_embed w0 ea sa fs)) sa k = mem k (seenStates fs).
Proof.
  unfold set_has, flat_embed; cbn [h_world w_sets].
  rewrite nth_set_nth_eq by (rewrite length_set_nth; exact Hsa); reflexivity.
Qed.

Lemma h_flat_edge_embed fs e :
  h_flat_edge cfg ea (flat_embed w0 ea sa fs) e = flat_embed w0 ea sa (flat_edge cfg fs e).
Proof.
  unfold h_flat_edge, flat_edge; rewrite has_edges_embed.
  destruct (mem (flat_key e) (seenEdges fs)) eqn:E; [reflexivity|].
  unfold set_add; rewrite has_edges_embed, E.
  unfold flat_embed; cbn [h_world h_lines w_machine w_sets f_lines seenEdges seenStates].
  rewrite nth_set_nth_ne by congruence; rewrite nth_set_nth_eq by exact Hea.
  rewrite set_nth_comm, set_nth_twice by congruence; reflexivity.
Qed.

Lemma h_flat_state_embed n fs :
  h_flat_state cfg sa n (flat_embed w0 ea sa fs) = flat_embed w0 ea sa (flat_state cfg n fs).
Proof.
  unfold h_flat_state, flat_state; rewrite has_states_embed.
  destruct (mem (getStateName (node_id n)) (seenStates fs)) eqn:E; [reflexivity|].
  unfold set_add; rewrite has_states_embed, E.
  unfold flat_embed; cbn [h_world h_lines w_machine w_sets f_lines seenEdges seenStates].
  rewrite nth_set_nth_eq by (rewrite length_set_nth; exact Hsa).
  rewrite set_nth_twice; reflexivity.
Qed.

Lemma h_flat_edges_embed es fs :
  fold_left (h_flat_edge cfg ea) es (flat_embed w0 ea sa fs)
  = flat_embed w0 ea sa (flat_edges cfg es fs).
Proof.
  revert fs; induction es as [|e es IH]; intros fs; [reflexivity|].
  simpl; rewrite h_flat_edge_embed; apply IH.
Qed.

Lemma h_collectAll_embed n :
  forall fs, h_collectAll cfg ea sa n (flat_embed w0 ea sa fs)
             = flat_embed w0 ea sa (collectAll cfg n fs).
Proof.
  induction n as [i sn es cs IH] using node_ind'; intros fs.
  cbn [h_collectAll collectAll children edges].
  rewrite h_flat_state_embed, h_flat_edges_embed.
  generalize (flat_edges cfg es (flat_state cfg (Node i sn es cs) fs)) as fs'.
  induction IH as [|c cs Hc _ IHcs]; intros fs'; [reflexivity|].
  simpl; rewrite Hc; apply IHcs.
Qed.

Lemma run_flat_embed o :
  cfg = cfg_of o ->
  nth ea (w_sets w0) [] = [] -> nth sa (w_sets w0) [] = [] ->
  run_flat ea sa o w0
  = (toMermaid (w_machine w0) o,
     h_world (flat_embed w0 ea sa
                (collect_list cfg (children (digraph (w_machine w0)))
                   (flat_edges cfg (edges (digraph (w_machine w0)))
                      (mkFlatSt (preamble (w_machine w0) o) [] []))))).
Proof.
  intros Hc H1 H2; unfold run_flat, toMermaid, toMermaid_lines; rewrite <- Hc.
  replace (mkHSt (preamble (w_machine w0) o) w0)
    with (flat_embed w0 ea sa (mkFlatSt (preamble (w_machine w0) o) [] [])).
  2:{ unfold flat_embed; cbn [f_lines seenEdges seenStates].
      rewrite (set_nth_id ea [] [] _ H1), (set_nth_id sa [] [] _ H2); destruct w0; reflexivity. }
  rewrite h_flat_edges_embed; unfold collect_list.
  generalize (flat_edges cfg (edges (digraph (w_machine w0)))
                (mkFlatSt (preamble (w_machine w0) o) [] [])) as fs.
  induction (children (digraph (w_machine w0))) as [|c cs IH]; intros fs; [reflexivity|].
  simpl; rewrite h_collectAll_embed; apply IH.
Qed.
End FlatSim.

Section NestSim.
Variable cfg : Cfg.
Variable w0 : World.
Variable pa : nat.
Hypothesis Hpa : (pa < length (w_sets w0))%nat.

Lemma h_push_embed l ns : h_push l (nest_embed w0 pa ns) = nest_embed w0 pa (push l ns).
Proof. reflexivity. Qed.

Lemma h_nest_edge_embed (k : nat) ns e :
  h_nest_edge cfg pa k (nest_embed w0 pa ns) e = nest_embed w0 pa (nest_edge cfg k ns e).
Proof.
  assert (Hh : forall ns' x, set_has (h_world (nest_embed w0 pa ns')) pa x = mem x (processedEdges ns'))
    by (intros; unfold set_has, nest_embed; cbn [h_world w_sets];
        rewrite nth_set_nth_eq by exact Hpa; reflexivity).
  unfold h_nest_edge, nest_edge; rewrite Hh.
  destruct (mem (nest_key e) (processedEdges ns)) eqn:E; [reflexivity|].
  unfold set_add; rewrite Hh, E.
  unfold nest_embed; cbn [h_world h_lines w_machine w_sets n_lines processedEdges].
  rewrite nth_set_nth_eq by exact Hpa; rewrite set_nth_twice; reflexivity.
Qed.

Lemma h_nest_edges_embed (k : nat) es ns :
  fold_left (h_nest_edge cfg pa k) es (nest_embed w0 pa ns)
  = nest_embed w0 pa (nest_edges cfg k es ns).
Proof.
  revert ns; induction es as [|e es IH]; intros ns; [reflexivity|].
  simpl; rewrite h_nest_edge_embed; apply IH.
Qed.

Lemma h_processNode_embed n :
  forall k ns, h_processNode cfg pa n k (nest_embed w0 pa ns)
               = nest_embed w0 pa (processNode cfg n k ns).
Proof.
  induction n as [i sn es cs IH] using node_ind'; intros k ns.
  cbn [h_processNode processNode children node_id stateNode edges].
  destruct cs as [|c cs]; [reflexivity|].
  assert (Hf : forall l, Forall (fun n => forall k ns, h_processNode cfg pa n k (nest_embed w0 pa ns)
                                                    = nest_embed w0 pa (processNode cfg n k ns)) l ->
            forall st, fold_left (fun st c0 => h_processNode cfg pa c0 (S k) st) l
                         (nest_embed w0 pa st)
                       = nest_embed w0 pa
                           (fold_left (fun st c0 => processNode cfg c0 (S k) st) l st)).
  { intros l HF; induction HF as [|c' l Hc _ IHl]; intros st; [reflexivity|].
    simpl; rewrite Hc; apply IHl. }
  specialize (Hf _ IH).
  destruct (opt_truthy (initial sn)); rewrite !h_push_embed, Hf, h_nest_edges_embed, h_push_embed;
    destruct (getDescription _) as [d|]; try destruct (truthy d); try reflexivity.
Qed.

Lemma run_nested_embed o :
  cfg = cfg_of o -> nth pa (w_sets w0) [] = [] ->
  run_nested pa o w0
  = (toMermaidNested (w_machine w0) o,
     h_world (nest_embed w0 pa
                (nest_edges cfg 1 (edges (digraph (w_machine w0)))
                   (process_list cfg (children (digraph (w_machine w0))) 1
                      (mkNestSt (preamble (w_machine w0) o) []))))).
Proof.
  intros Hc H1; unfold run_nested, toMermaidNested, toMermaidNested_lines; rewrite <- Hc.
  replace (mkHSt (preamble (w_machine w0) o) w0)
    with (nest_embed w0 pa (mkNestSt (preamble (w_machine w0) o) [])).
  2:{ unfold nest_embed; cbn [n_lines processedEdges].
      rewrite (set_nth_id pa [] [] _ H1); destruct w0; reflexivity. }
  unfold process_list.
  assert (Hl : forall cs st,
    fold_left (fun st c => h_processNode cfg pa c 1 st) cs (nest_embed w0 pa st)
    = nest_embed w0 pa (fold_left (fun st c => processNode cfg c 1 st) cs st)).
  { induction cs as [|c cs IH]; intros st; [reflexivity|].
    simpl; rewrite h_processNode_embed; apply IH. }
  rewrite Hl, h_nest_edges_embed; reflexivity.
Qed.
End NestSim.

Lemma call_toMermaid_spec o w :
  fst (call_toMermaid o w) = toMermaid (w_machine w) o /\
  w_machine (snd (call_toMermaid o w)) = w_machine w.
Proof.
  unfold call_toMermaid, new_set.
  set (l := w_sets w).
  set (w2 := mkWorld (w_machine w) ((l ++ [[]]) ++ [[]])).
  assert (Hl : (l ++ [[]]) ++ [[]] = l ++ [] :: [[]]) by (rewrite <- app_assoc; reflexivity).
  assert (Hlen : length (w_sets w2) = S (S (length l)))
    by (unfold w2; cbn [w_sets]; rewrite !length_app; simpl; lia).
  rewrite (run_flat_embed (cfg_of o) w2 (length l) (length (l ++ [[]]))); cbn [fst snd].
  - split; reflexivity.
  - rewrite Hlen; lia.
  - rewrite Hlen, length_app; simpl; lia.
  - rewrite length_app; simpl; lia.
  - reflexivity.
  - unfold w2; cbn [w_sets]; rewrite Hl; apply nth_middle.
  - unfold w2; cbn [w_sets]; apply nth_middle.
Qed.

Lemma call_toMermaidNested_spec o w :
  fst (call_toMermaidNested o w) = toMermaidNested (w_machine w) o /\
  w_machine (snd (call_toMermaidNested o w)) = w_machine w.
Proof.
  unfold call_toMermaidNested, new_set.
  rewrite (run_nested_embed (cfg_of o) (mkWorld (w_machine w) (w_sets w ++ [[]])) (length (w_sets w)));
    cbn [fst snd w_machine w_sets].
  - split; reflexivity.
  - rewrite length_app; simpl; lia.
  - reflexivity.
  - apply nth_middle.
Qed.

(** C9.  Modelled with its per-call state (a heap holding the caller's
    machine and the [Set] objects each call allocates), a call of
    [toMermaid] (resp. [toMermaidNested]) made after a first call with the
    same options, in the world that first call left, returns the same text
    as the first call: the machine is never written, and each call walks
    with sets of its own, allocated empty.  Both texts are the pure
    [toMermaid]/[toMermaidNested] of the machine. *)
Theorem C9_deterministic :
  forall w o,
    fst (call_toMermaid o (snd (call_toMermaid o w))) = fst (call_toMermaid o w) /\
    fst (call_toMermaid o w) = toMermaid (w_machine w) o /\
    fst (call_toMermaidNested o (snd (call_toMermaidNested o w)))
      = fst (call_toMermaidNested o w) /\
    fst (call_toMermaidNested o w) = toMermaidNested (w_machine w) o.
Proof.
  intros w o.
  destruct (call_toMermaid_spec o w) as [F1 F2].
  destruct (call_toMermaid_spec o (snd (call_toMermaid o w))) as [F3 _].
  destruct (call_toMermaidNested_spec o w) as [N1 N2].
  destruct (call_toMermaidNested_spec o (snd (call_toMermaidNested o w))) as [N3 _].
  rewrite F3, F2, F1, N3, N2, N1; repeat split.
Qed.

(** With the sets shared between calls, the code would not be
    deterministic: rerunning the body of [toMermaid] on the sets the first
    run filled emits no state and no edge line.  Fresh sets per call are
    what makes the two texts agree. *)
Lemma shared_sets_second_run_differs :
  let w := mkWorld flatMachine [[]; []] in
  fst (run_flat 0 1 default_options (snd (run_flat 0 1 default_options w)))
    <> fst (run_flat 0 1 default_options w).
Proof. vm_compute; congruence. Qed.

(** ** C7: internal actions never surface *)

Lemma action_names_strip (l : list action) :
  action_names (filter (fun a => negb (reserved a)) l) = action_names l.
Proof.
  induction l as [|[t|] l IH]; cbn [filter reserved negb action_names]; auto.
  destruct (startsWith t xstate_prefix) eqn:E; cbn [negb action_names];
    unfold user_action; rewrite E; cbn [negb].
  - rewrite andb_false_r; exact IH.
  - rewrite IH; reflexivity.
Qed.

Lemma action_names_nonempty (l : list action) : action_names l <> [] -> l <> [].
Proof. destruct l; simpl; congruence. Qed.

Lemma length_pos (A : Type) (l : list A) : l <> [] -> (0 <? Z.of_nat (length l)) = true.
Proof. destruct l; [congruence|]; intros _; simpl; apply Z.ltb_lt; lia. Qed.

Lemma formatTransitionLabel_strip (e : edge) g a :
  formatTransitionLabel (etrans (strip_edge e)) g a = formatTransitionLabel (etrans e) g a.
Proof.
  destruct e as [s t [ev gd [acts|]]]; unfold formatTransitionLabel; simpl; [|reflexivity].
  rewrite action_names_strip.
  destruct (action_names acts) eqn:E.
  - simpl; destruct (a && _), (a && _); reflexivity.
  - assert (H1 : acts <> []) by (apply action_names_nonempty; congruence).
    assert (H2 : filter (fun a => negb (reserved a)) acts <> []).
    { apply action_names_nonempty; rewrite action_names_strip; congruence. }
    rewrite (length_pos _ _ H1), (length_pos _ _ H2); reflexivity.
Qed.

Lemma state_label_strip cfg (n : node) : state_label cfg (strip_node n) = state_label cfg n.
Proof.
  destruct n as [i [d tg mt en ex iv ini] es cs].
  unfold state_label, getEntryActions; simpl.
  destruct en; simpl; [rewrite action_names_strip|]; reflexivity.
Qed.

Lemma flat_edges_strip cfg (es : list edge) st :
  flat_edges cfg (map strip_edge es) st = flat_edges cfg es st.
Proof.
  revert st; induction es as [|e es IH]; intros st; simpl; auto.
  rewrite <- IH; f_equal.
  unfold flat_edge, edge_label; rewrite formatTransitionLabel_strip; reflexivity.
Qed.

Lemma nest_edges_strip cfg k (es : list edge) st :
  nest_edges cfg k (map strip_edge es) st = nest_edges cfg k es st.
Proof.
  revert st; induction es as [|e es IH]; intros st; simpl; auto.
  rewrite <- IH; f_equal.
  unfold nest_edge, edge_label; rewrite formatTransitionLabel_strip; reflexivity.
Qed.

Lemma fold_left_map_ext {A B C} (f : A -> C -> A) (g : A -> B -> A) (h : B -> C)
      (l : list B) (x : A) :
  Forall (fun b => forall y, f y (h b) = g y b) l ->
  fold_left f (map h l) x = fold_left g l x.
Proof.
  intros HF; revert x; induction HF as [|b l Hb _ IH]; intros x; simpl; auto.
  rewrite Hb; apply IH.
Qed.

Lemma collectAll_eq cfg (n : node) st :
  collectAll cfg n st
  = fold_left (fun st c => collectAll cfg c st) (children n)
      (flat_edges cfg (edges n) (flat_state cfg n st)).
Proof. destruct n; reflexivity. Qed.

Lemma flat_state_strip cfg (n : node) st :
  flat_state cfg (strip_node n) st = flat_state cfg n st.
Proof. unfold flat_state; rewrite state_label_strip; destruct n; reflexivity. Qed.

Lemma collectAll_strip cfg (n : node) :
  forall st, collectAll cfg (strip_node n) st = collectAll cfg n st.
Proof.
  induction n as [i sn es cs IH] using node_ind'; intros st.
  rewrite (collectAll_eq cfg (strip_node _)), (collectAll_eq cfg (Node i sn es cs)).
  rewrite flat_state_strip; cbn [strip_node children edges].
  rewrite flat_edges_strip.
  apply fold_left_map_ext.
  eapply Forall_impl; [|exact IH]; intros c Hc y; apply Hc.
Qed.

Lemma processNode_strip cfg (n : node) :
  forall k st, processNode cfg (strip_node n) k st = processNode cfg n k st.
Proof.
  induction n as [i sn es cs IH] using node_ind'; intros k st.
  destruct cs as [|c cs].
  - cbn [processNode strip_node children map node_id stateNode edges].
    change (Node i (strip_sn sn) (map strip_edge es) []) with (strip_node (Node i sn es [])).
    rewrite state_label_strip; reflexivity.
  - cbn [processNode strip_node children map node_id stateNode edges].
    rewrite nest_edges_strip.
    change (fold_left (fun st0 c0 => processNode cfg c0 (S k) st0)
              (strip_node c :: map strip_node cs))
      with (fold_left (fun st0 c0 => processNode cfg c0 (S k) st0)
              (map strip_node (c :: cs))).
    rewrite (fold_left_map_ext _ (fun st0 c0 => processNode cfg c0 (S k) st0)).
    + unfold getDescription; reflexivity.
    + eapply Forall_impl; [|exact IH]; intros c' Hc y; apply Hc.
Qed.

(** C7.  Removing every action whose identifier carries the reserved
    [xstate.] prefix from every entry-action, exit-action and
    transition-action list leaves the output of [toMermaid] and of
    [toMermaidNested] unchanged, for every machine and options: such an
    identifier never surfaces in the diagram. *)
Theorem C7_internal_actions_invisible :
  forall m o,
    toMermaid (strip_machine m) o = toMermaid m o /\
    toMermaidNested (strip_machine m) o = toMermaidNested m o.
Proof.
  intros [ini [i sn es cs]] o; unfold toMermaid, toMermaidNested,
    toMermaid_lines, toMermaidNested_lines, strip_machine; cbn [strip_node digraph
    config_initial edges children]; unfold preamble; cbn [config_initial].
  split.
  - rewrite flat_edges_strip; unfold collect_list.
    rewrite (fold_left_map_ext _ (fun st c => collectAll (cfg_of o) c st)); [reflexivity|].
    apply Forall_forall; intros c _ y; apply collectAll_strip.
  - rewrite nest_edges_strip; unfold process_list.
    rewrite (fold_left_map_ext _ (fun st c => processNode (cfg_of o) c 1 st)); [reflexivity|].
    apply Forall_forall; intros c _ y; apply processNode_strip.
Qed.

(** ** C10: one state line per short name *)

Definition sname (n : node) : jstr := getStateName (node_id n).

(** The seen-state set after the nodes of [l] were visited. *)
Fixpoint seen_after (seen : list jstr) (l : list node) : list jstr :=
  match l with
  | [] => seen
  | n :: l' => if mem (sname n) seen then seen_after seen l' else seen_after (sname n :: seen) l'
  end.

Lemma state_lines_app (a b : list line) :
  state_lines (a ++ b) = state_lines a ++ state_lines b.
Proof. induction a as [|[] a IH]; simpl; try rewrite IH; reflexivity. Qed.

Lemma first_by_name_app seen (l1 l2 : list node) :
  first_by_name seen (l1 ++ l2)
  = first_by_name seen l1 ++ first_by_name (seen_after seen l1) l2.
Proof.
  revert seen; induction l1 as [|n l1 IH]; intros seen; simpl; auto.
  fold (sname n); destruct (mem (sname n) seen); simpl; rewrite IH; reflexivity.
Qed.

Lemma seen_after_app seen (l1 l2 : list node) :
  seen_after seen (l1 ++ l2) = seen_after (seen_after seen l1) l2.
Proof.
  revert seen; induction l1 as [|n l1 IH]; intros seen; simpl; auto.
  destruct (mem (sname n) seen); apply IH.
Qed.

Lemma flat_edges_states cfg (es : list edge) st :
  state_lines (f_lines (flat_edges cfg es st)) = state_lines (f_lines st) /\
  seenStates (flat_edges cfg es st) = seenStates st.
Proof.
  revert st; induction es as [|e es IH]; intros st; simpl; auto.
  destruct (IH (flat_edge cfg st e)) as [H1 H2]; rewrite H1, H2.
  unfold flat_edge; destruct (mem _ _); simpl; auto.
  rewrite state_lines_app, app_nil_r; auto.
Qed.

Section SeenStates.
Variable cfg : Cfg.

Definition slabel (n : node) : jstr * jstr := (sname n, state_label cfg n).

(** Walking [f] over the nodes [l] adds the label lines of the first node
    of each short name not seen yet, and marks those names seen. *)
Definition walk_ok (f : FlatSt -> FlatSt) (l : list node) : Prop :=
  forall st,
    state_lines (f_lines (f st))
      = state_lines (f_lines st) ++ map slabel (first_by_name (seenStates st) l) /\
    seenStates (f st) = seen_after (seenStates st) l.

Lemma collect_list_ok (cs : list node) :
  Forall (fun c => walk_ok (collectAll cfg c) (preorder c)) cs ->
  walk_ok (collect_list cfg cs) (flat_map preorder cs).
Proof.
  unfold collect_list; intros HF; induction HF as [|c cs Hc _ IH]; intros st; simpl.
  - rewrite app_nil_r; auto.
  - destruct (Hc st) as [H1 H2]; destruct (IH (collectAll cfg c st)) as [H3 H4].
    rewrite H3, H4, H1, H2, first_by_name_app, seen_after_app, map_app, app_assoc.
    auto.
Qed.

Lemma collectAll_ok (n : node) : walk_ok (collectAll cfg n) (preorder n).
Proof.
  induction n as [i sn es cs IH] using node_ind'; intros st.
  rewrite collectAll_eq; cbn [children edges preorder first_by_name seen_after].
  fold (sname (Node i sn es cs)).
  destruct (collect_list_ok cs IH
              (flat_edges cfg es (flat_state cfg (Node i sn es cs) st))) as [H1 H2].
  unfold collect_list in H1, H2; rewrite H1, H2.
  destruct (flat_edges_states cfg es (flat_state cfg (Node i sn es cs) st)) as [H3 H4].
  rewrite H3, H4; unfold flat_state; fold (sname (Node i sn es cs)).
  destruct (mem (sname (Node i sn es cs)) (seenStates st)); simpl; auto.
  rewrite state_lines_app, <- app_assoc; auto.
Qed.
End SeenStates.

Lemma first_by_name_nodup (l : list node) :
  forall seen,
    NoDup (map sname (first_by_name seen l)) /\
    (forall x, In x (map sname (first_by_name seen l)) -> ~ In x seen).
Proof.
  induction l as [|n l IH]; intros seen; simpl; [split; [constructor | tauto]|].
  fold (sname n); destruct (mem (sname n) seen) eqn:E; [apply IH|].
  destruct (IH (sname n :: seen)) as [HN HD]; simpl; split.
  - constructor; [intros Hin; apply (HD _ Hin); left; reflexivity | exact HN].
  - intros x [<-|Hx]; [apply mem_false; exact E|].
    intros Hs; apply (HD x Hx); right; exact Hs.
Qed.

(** C10.  In the flat output, the state-label lines are, in order, one line
    for the first node of each short name in the pre-order walk: a later node
    with an already-seen short name emits no label line.  So there is at most
    one state-label line per short name. *)
Theorem C10_one_label_per_short_name :
  forall m o,
    state_lines (toMermaid_lines m o)
      = map (fun n => (getStateName (node_id n), state_label (cfg_of o) n))
            (first_by_name [] (flat_map preorder (children (digraph m)))) /\
    NoDup (map fst (state_lines (toMermaid_lines m o))).
Proof.
  intros m o.
  assert (Hpre : state_lines (preamble m o) = [])
    by (unfold preamble; destruct (opt_truthy _), (opt_truthy _); reflexivity).
  assert (Heq : state_lines (toMermaid_lines m o)
                = map (slabel (cfg_of o)) (first_by_name [] (flat_map preorder (children (digraph m))))).
  { unfold toMermaid_lines.
    set (st1 := flat_edges (cfg_of o) (edges (digraph m)) (mkFlatSt (preamble m o) [] [])).
    destruct (flat_edges_states (cfg_of o) (edges (digraph m)) (mkFlatSt (preamble m o) [] []))
      as [H1 H2]; fold st1 in H1, H2; cbn [f_lines seenStates] in H1, H2.
    destruct (collect_list_ok (cfg_of o) (children (digraph m))
                (proj2 (Forall_forall _ _) (fun c _ => collectAll_ok (cfg_of o) c))
                st1) as [H3 _].
    rewrite H3, H1, H2, Hpre; reflexivity. }
  rewrite Heq; split; [reflexivity|].
  rewrite map_map; apply first_by_name_nodup.
Qed.

(** C10 (illustration).  [m.p.x] and [m.q.x] share the short name [x]: the
    flat output has the label line of the first only, and the description
    [second] of the other appears nowhere. *)
Lemma C10_shadowed_example :
  state_lines (toMermaid_lines shadowMachine default_options)
    = [(lit "p", lit "p"); (lit "x", lit "<b>x</b><br/>first"); (lit "q", lit "q")] /\
  includes (toMermaid shadowMachine default_options) (lit "second") = false.
Proof. vm_compute; split; reflexivity. Qed.

(** * Further properties of index.ts *)

(** ** getStateName *)

Lemma split_on_nonempty (c : Z) (s : jstr) : split_on c s <> [].
Proof.
  destruct s as [|d s]; simpl; [discriminate|].
  destruct (d =? c); [discriminate|]; destruct (split_on c s); discriminate.
Qed.

Lemma split_on_two (c : Z) (p s : jstr) :
  exists q qs, split_on c (p ++ c :: s) = q :: qs /\ qs <> [].
Proof.
  induction p as [|d p (q & qs & E & Hq)]; simpl.
  - rewrite Z.eqb_refl; exists [], (split_on c s); split; [reflexivity|].
    apply split_on_nonempty.
  - destruct (d =? c).
    + exists [], (split_on c (p ++ c :: s)); split; [reflexivity|]; rewrite E; discriminate.
    + rewrite E; exists (d :: q), qs; split; [reflexivity | exact Hq].
Qed.

Lemma last_cons_ne {A} (a : A) (l : list A) (d : A) : l <> [] -> last (a :: l) d = last l d.
Proof. destruct l; [congruence | reflexivity]. Qed.

Lemma split_on_no_sep (c : Z) (s : jstr) : ~ In c s -> split_on c s = [s].
Proof.
  induction s as [|d s IH]; intros H; simpl; [reflexivity|].
  replace (d =? c) with false by (symmetry; apply Z.eqb_neq; intros ->; apply H; left; auto).
  rewrite IH by (intros Hin; apply H; right; exact Hin); reflexivity.
Qed.

Lemma split_on_parts (c : Z) (s : jstr) : forall x, In x (split_on c s) -> ~ In c x.
Proof.
  induction s as [|d s IH]; simpl; intros x Hx.
  - destruct Hx as [<-|[]]; simpl; tauto.
  - destruct (d =? c) eqn:E.
    + destruct Hx as [<-|Hx]; [simpl; tauto | apply IH, Hx].
    + apply Z.eqb_neq in E.
      destruct (split_on c s) as [|q qs] eqn:Es.
      * destruct Hx as [<-|[]]; simpl; intuition.
      * destruct Hx as [<-|Hx].
        -- intros [Hdc|Hq]; [congruence | apply (IH q); [left; reflexivity | exact Hq]].
        -- apply IH; right; exact Hx.
Qed.

Lemma last_in {A} (l : list A) (d : A) : l <> [] -> In (last l d) l.
Proof.
  induction l as [|a l IH]; intros H; [congruence|].
  destruct l as [|b l]; [left; reflexivity|].
  right; apply IH; discriminate.
Qed.

(** The short name of a dotted path is that of its part after any dot:
    [getStateName("p.s")] is [getStateName("s")]. *)
Theorem getStateName_suffix :
  forall p s, getStateName (p ++ c_dot :: s) = getStateName s.
Proof.
  intros p s; unfold getStateName.
  induction p as [|d p IH]; cbn [split_on app].
  - rewrite Z.eqb_refl; apply last_cons_ne, split_on_nonempty.
  - destruct (d =? c_dot).
    + rewrite last_cons_ne; [exact IH|].
      destruct (split_on_two c_dot p s) as (q & qs & E & _); rewrite E; discriminate.
    + destruct (split_on_two c_dot p s) as (q & qs & E & Hq).
      rewrite E in IH |- *; rewrite last_cons_ne by exact Hq.
      rewrite last_cons_ne in IH by exact Hq; exact IH.
Qed.

(** An id without a dot is its own short name. *)
Theorem getStateName_no_dot : forall s, ~ In c_dot s -> getStateName s = s.
Proof. intros s H; unfold getStateName; rewrite split_on_no_sep by exact H; reflexivity. Qed.

Lemma getStateName_no_dot_witness :
  ~ In c_dot (lit "idle") /\ getStateName (lit "idle") = lit "idle".
Proof.
  assert (H : ~ In c_dot (lit "idle")) by (simpl; unfold c_dot; lia).
  split; [exact H | apply getStateName_no_dot; exact H].
Defined.

(** A short name never contains a dot. *)
Theorem getStateName_dot_free : forall id, ~ In c_dot (getStateName id).
Proof.
  intros id; unfold getStateName.
  apply split_on_parts with (s := id), last_in, split_on_nonempty.
Qed.

(** ** escapeMermaidText *)

Lemma escape_id_no_colon : forall s, ~ In c_colon s -> escapeMermaidText s = s.
Proof.
  induction s as [|c s IH]; intros H; [reflexivity|]; unfold escapeMermaidText in *; simpl.
  replace (c =? c_colon) with false
    by (symmetry; apply Z.eqb_neq; intros ->; apply H; left; reflexivity).
  simpl; rewrite IH; [reflexivity|]; intros Hin; apply H; right; exact Hin.
Qed.

(** Text without a colon is left as it is. *)
Theorem escape_colon_free : forall s, ~ In c_colon s -> escapeMermaidText s = s.
Proof. exact escape_id_no_colon. Qed.

Lemma escape_colon_free_witness :
  ~ In c_colon (lit "Cars may proceed") /\
  escapeMermaidText (lit "Cars may proceed") = lit "Cars may proceed".
Proof.
  assert (H : ~ In c_colon (lit "Cars may proceed")) by (simpl; unfold c_colon; lia).
  split; [exact H | apply escape_colon_free; exact H].
Defined.

(** Escaping twice is escaping once. *)
Theorem escape_idempotent : forall s, escapeMermaidText (escapeMermaidText s) = escapeMermaidText s.
Proof. intros s; apply escape_id_no_colon, escape_no_colon. Qed.

(** Each colon becomes two code units: the length grows by the number of colons. *)
Theorem escape_length :
  forall s, length (escapeMermaidText s) = (length s + count_occ Z.eq_dec s c_colon)%nat.
Proof.
  induction s as [|c s IH]; [reflexivity|]; unfold escapeMermaidText in *; simpl.
  rewrite length_app, IH.
  destruct (Z.eq_dec c c_colon) as [->|Hne]; simpl.
  - lia.
  - replace (c =? c_colon) with false by (symmetry; apply Z.eqb_neq; exact Hne); simpl; lia.
Qed.

(** ** formatEventName *)

Lemma formatEventName_cases (e : jstr) :
  formatEventName e = e \/ exists n, formatEventName e = lit "after " ++ n ++ lit "ms".
Proof.
  unfold formatEventName; destruct (startsWith e after_prefix); [|left; reflexivity].
  destruct (regex_after e) as [n|]; [right; exists n; reflexivity | left; reflexivity].
Qed.

(** Formatting an already formatted event name changes nothing. *)
Theorem formatEventName_idempotent :
  forall e, formatEventName (formatEventName e) = formatEventName e.
Proof.
  intros e; destruct (formatEventName_cases e) as [H|[n H]]; rewrite H; [exact H|].
  apply formatEventName_other; reflexivity.
Qed.

Lemma formatEventName_delay_witness :
  lit "1000" <> [] /\ forallb is_digit (lit "1000") = true /\
  formatEventName (after_prefix ++ lit "1000" ++ c_dot :: lit "comprehensive.stateA")
    = lit "after 1000ms".
Proof.
  split; [discriminate|]; split; [reflexivity|].
  apply formatEventName_delay; [discriminate | reflexivity].
Defined.

(** ** buildStateLabel *)

(** A non-positive [maxLen], negative ones included, disables truncation. *)
Theorem buildStateLabel_nonpositive_no_limit :
  forall name desc invs ent invokes L, L <= 0 ->
    buildStateLabel name desc invs ent invokes L
    = join (lit "<br/>") (label_lines name desc invs ent invokes).
Proof.
  intros name desc invs ent invokes L HL; unfold buildStateLabel, truncate.
  replace (0 <? L) with false by (symmetry; apply Z.ltb_ge; exact HL); reflexivity.
Qed.

Lemma buildStateLabel_nonpositive_no_limit_witness :
  -5 <= 0 /\
  buildStateLabel (lit "s") (Some (lit "abcdef")) [] [] [] (-5) = lit "<b>s</b><br/>abcdef".
Proof.
  split; [lia|].
  rewrite buildStateLabel_nonpositive_no_limit by lia; vm_compute; reflexivity.
Defined.

(** With [maxLen = L > 0], a state label never exceeds [L + 3] code units. *)
Theorem buildStateLabel_length_bound :
  forall name desc invs ent invokes L, 0 < L ->
    Z.of_nat (length (buildStateLabel name desc invs ent invokes L)) <= L + 3.
Proof.
  intros name desc invs ent invokes L HL; unfold buildStateLabel, truncate.
  set (text := join (lit "<br/>") (label_lines name desc invs ent invokes)).
  destruct ((0 <? L) && (L <? Z.of_nat (length text))) eqn:E.
  - apply andb_prop in E as [_ E]; apply Z.ltb_lt in E.
    rewrite length_app, firstn_length_le by lia; simpl length; lia.
  - apply andb_false_iff in E as [E|E]; apply Z.ltb_ge in E; lia.
Qed.

Lemma buildStateLabel_length_bound_witness :
  0 < 3 /\
  Z.of_nat (length (buildStateLabel (lit "s") (Some (lit "abcdef")) [] [] [] 3)) <= 3 + 3.
Proof. split; [lia | apply buildStateLabel_length_bound; lia]. Defined.

(** The first line of every state label is the bold short name, unless the
    label is cut shorter than that line. *)
Theorem buildStateLabel_header :
  forall name desc invs ent invokes L,
    (L <= 0 \/ Z.of_nat (length name) + 7 <= L) ->
    startsWith (buildStateLabel name desc invs ent invokes L)
               (lit "<b>" ++ name ++ lit "</b>") = true.
Proof.
  intros name desc invs ent invokes L HL; unfold buildStateLabel, truncate.
  set (hd := lit "<b>" ++ name ++ lit "</b>").
  assert (Hl : label_lines name desc invs ent invokes = hd :: tl (label_lines name desc invs ent invokes))
    by reflexivity.
  assert (Htext : exists r, join (lit "<br/>") (label_lines name desc invs ent invokes) = hd ++ r).
  { rewrite Hl; destruct (tl _) as [|x xs]; [exists []; rewrite app_nil_r; reflexivity|].
    exists (lit "<br/>" ++ join (lit "<br/>") (x :: xs)); reflexivity. }
  destruct Htext as [r Hr]; rewrite Hr.
  assert (Hhd : length hd = (length name + 7)%nat)
    by (unfold hd; rewrite !length_app; simpl; lia).
  destruct ((0 <? L) && (L <? Z.of_nat (length (hd ++ r)))) eqn:E.
  - apply andb_prop in E as [E1 _]; apply Z.ltb_lt in E1.
    destruct HL as [HL|HL]; [lia|].
    rewrite firstn_app, firstn_all2 by lia; rewrite <- !app_assoc; apply startsWith_app.
  - apply startsWith_app.
Qed.

Lemma buildStateLabel_header_witness :
  (5 <= 0 \/ Z.of_nat (length (lit "idle")) + 7 <= 20) /\
  startsWith (buildStateLabel (lit "idle") (Some (lit "Waiting for order submission")) [] [] [] 20)
             (lit "<b>" ++ lit "idle" ++ lit "</b>") = true.
Proof.
  assert (H : 5 <= 0 \/ Z.of_nat (length (lit "idle")) + 7 <= 20) by (right; simpl; lia).
  split; [exact H|].
  apply buildStateLabel_header; right; simpl; lia.
Defined.

(** ** formatTransitionLabel *)

(** The label with actions enabled is the label without them, followed by
    the actions suffix exactly when some action is a user action. *)
Theorem formatTransitionLabel_actions_suffix :
  forall t g,
    formatTransitionLabel t g true
    = formatTransitionLabel t g false ++
      match actions t with
      | Some acts =>
          match action_names acts with
          | [] => []
          | ns => lit "<br/>" ++ g_bolt ++ lit " " ++ join (lit ", ") ns
          end
      | None => []
      end.
Proof.
  intros t g; unfold formatTransitionLabel.
  destruct (actions t) as [acts|]; cbn [andb]; [|rewrite app_nil_r; reflexivity].
  destruct (action_names acts) as [|a ns] eqn:E.
  - change (0 <? Z.of_nat (length (@nil jstr))) with false.
    destruct (0 <? Z.of_nat (length acts)); symmetry; apply app_nil_r.
  - assert (Hne : acts <> []) by (apply action_names_nonempty; congruence).
    rewrite (length_pos _ _ Hne).
    replace (0 <? Z.of_nat (length (a :: ns))) with true
      by (symmetry; apply length_pos; discriminate).
    reflexivity.
Qed.

(** With guards enabled and a non-empty guard [g], ["<event> IF <g>"] opens
    the label; only the actions suffix may follow. *)
Theorem formatTransitionLabel_guard :
  forall t a g, guard t = Some g -> g <> [] ->
    exists rest,
      formatTransitionLabel t true a = formatEventName (eventType t) ++ lit " IF " ++ g ++ rest /\
      (rest = [] \/ startsWith rest (lit "<br/>") = true).
Proof.
  intros t a g Hg Hne; unfold formatTransitionLabel; rewrite Hg.
  replace (opt_truthy (Some g)) with true by (destruct g; [congruence | reflexivity]).
  cbn [andb dflt].
  destruct (actions t) as [acts|];
    [|exists []; rewrite !app_nil_r; split; [reflexivity | left; reflexivity]].
  destruct (a && _); [destruct (0 <? _)|];
    first [ eexists; split; [rewrite <- !app_assoc; reflexivity | right; apply startsWith_app]
          | exists []; rewrite !app_nil_r; split; [reflexivity | left; reflexivity] ].
Qed.

Lemma formatTransitionLabel_guard_witness :
  guard (mkTransition (lit "SUBMIT") (Some (lit "stockAvailable")) None) = Some (lit "stockAvailable") /\
  lit "stockAvailable" <> [] /\
  exists rest,
    formatTransitionLabel (mkTransition (lit "SUBMIT") (Some (lit "stockAvailable")) None) true true
      = formatEventName (lit "SUBMIT") ++ lit " IF " ++ lit "stockAvailable" ++ rest /\
    (rest = [] \/ startsWith rest (lit "<br/>") = true).
Proof.
  split; [reflexivity|]; split; [discriminate|].
  apply (formatTransitionLabel_guard (mkTransition (lit "SUBMIT") (Some (lit "stockAvailable")) None));
    [reflexivity | discriminate].
Defined.

(** ** Fields the walkers never read

    Rewriting the state nodes with [fs] and the transitions with [ft]
    changes neither output, as long as the rewrite keeps what the walkers
    read under the given options: the initial child, the description, a
    node's own state label, the event type and the transition label. *)

Lemma map_fields_eq fs ft (n : node) :
  map_fields fs ft n
  = Node (node_id n) (fs (stateNode n))
      (map (fun e => mkEdge (source_id e) (target_id e) (ft (etrans e))) (edges n))
      (map (map_fields fs ft) (children n)).
Proof. destruct n; reflexivity. Qed.

Lemma state_label_fields cfg (n : node) :
  state_label cfg n = state_label cfg (Node (node_id n) (stateNode n) [] []).
Proof. destruct n; reflexivity. Qed.

Lemma processNode_eq cfg (n : node) k st :
  processNode cfg n k st =
  match children n with
  | [] => push (LState k (getStateName (node_id n)) (state_label cfg n)) st
  | cs =>
      let st := push (LOpen k (getStateName (node_id n))) st in
      let st := if opt_truthy (initial (stateNode n))
                then push (LInitial (S k) (dflt (initial (stateNode n)) [])) st
                else st in
      let st := fold_left (fun st c => processNode cfg c (S k) st) cs st in
      let st := nest_edges cfg (S k) (edges n) st in
      let st := push (LClose k) st in
      match getDescription n with
      | Some d => if truthy d
                  then push (LNote k (getStateName (node_id n)) (truncate (maxLen cfg) d)) st
                  else st
      | None => st
      end
  end.
Proof. destruct n; reflexivity. Qed.

Section NonInterference.
Variable cfg : Cfg.
Variable fs : state_node -> state_node.
Variable ft : transition -> transition.
Hypothesis fs_initial : forall sn, initial (fs sn) = initial sn.
Hypothesis fs_description : forall sn, description (fs sn) = description sn.
Hypothesis fs_label :
  forall i sn, state_label cfg (Node i (fs sn) [] []) = state_label cfg (Node i sn [] []).
Hypothesis ft_event : forall t, eventType (ft t) = eventType t.
Hypothesis ft_label :
  forall t, formatTransitionLabel (ft t) (incGuards cfg) (incActions cfg)
            = formatTransitionLabel t (incGuards cfg) (incActions cfg).

Lemma flat_edges_map es st :
  flat_edges cfg (map (fun e => mkEdge (source_id e) (target_id e) (ft (etrans e))) es) st
  = flat_edges cfg es st.
Proof.
  unfold flat_edges; apply fold_left_map_ext, Forall_forall; intros e _ y.
  unfold flat_edge, flat_key, edge_label; cbn [source_id target_id etrans].
  rewrite ft_event, ft_label; reflexivity.
Qed.

Lemma nest_edges_map k es st :
  nest_edges cfg k (map (fun e => mkEdge (source_id e) (target_id e) (ft (etrans e))) es) st
  = nest_edges cfg k es st.
Proof.
  unfold nest_edges; apply fold_left_map_ext, Forall_forall; intros e _ y.
  unfold nest_edge, nest_key, edge_label; cbn [source_id target_id etrans].
  rewrite ft_event, ft_label; reflexivity.
Qed.

Lemma state_label_map (n : node) :
  state_label cfg (map_fields fs ft n) = state_label cfg n.
Proof.
  rewrite state_label_fields, (state_label_fields cfg n), map_fields_eq.
  cbn [node_id stateNode]; apply fs_label.
Qed.

Lemma getDescription_map (n : node) :
  getDescription (map_fields fs ft n) = getDescription n.
Proof.
  rewrite map_fields_eq; unfold getDescription; cbn [stateNode]; rewrite fs_description;
    reflexivity.
Qed.

Lemma collectAll_map (n : node) :
  forall st, collectAll cfg (map_fields fs ft n) st = collectAll cfg n st.
Proof.
  induction n as [i sn es cs IH] using node_ind'; intros st.
  rewrite collectAll_eq, (collectAll_eq cfg (Node i sn es cs)).
  assert (Hs : flat_state cfg (map_fields fs ft (Node i sn es cs)) st
               = flat_state cfg (Node i sn es cs) st).
  { unfold flat_state; rewrite state_label_map; reflexivity. }
  rewrite Hs; cbn [map_fields children edges]; rewrite flat_edges_map.
  apply fold_left_map_ext.
  eapply Forall_impl; [|exact IH]; intros c Hc y; apply Hc.
Qed.

Lemma processNode_map (n : node) :
  forall k st, processNode cfg (map_fields fs ft n) k st = processNode cfg n k st.
Proof.
  induction n as [i sn es cs IH] using node_ind'; intros k st.
  rewrite processNode_eq, (processNode_eq cfg (Node i sn es cs)).
  rewrite state_label_map, getDescription_map.
  cbn [map_fields children edges node_id stateNode].
  destruct cs as [|c cs]; [reflexivity|].
  cbn [map]; rewrite fs_initial, nest_edges_map.
  change (fold_left (fun st0 c0 => processNode cfg c0 (S k) st0)
            (map_fields fs ft c :: map (map_fields fs ft) cs))
    with (fold_left (fun st0 c0 => processNode cfg c0 (S k) st0)
            (map (map_fields fs ft) (c :: cs))).
  rewrite (fold_left_map_ext _ (fun st0 c0 => processNode cfg c0 (S k) st0));
    [reflexivity|].
  eapply Forall_impl; [|exact IH]; intros c' Hc y; apply Hc.
Qed.
End NonInterference.

Lemma outputs_map_fields m o fs ft :
  (forall sn, initial (fs sn) = initial sn) ->
  (forall sn, description (fs sn) = description sn) ->
  (forall i sn, state_label (cfg_of o) (Node i (fs sn) [] [])
                = state_label (cfg_of o) (Node i sn [] [])) ->
  (forall t, eventType (ft t) = eventType t) ->
  (forall t, formatTransitionLabel (ft t) (incGuards (cfg_of o)) (incActions (cfg_of o))
             = formatTransitionLabel t (incGuards (cfg_of o)) (incActions (cfg_of o))) ->
  toMermaid (map_machine fs ft m) o = toMermaid m o /\
  toMermaidNested (map_machine fs ft m) o = toMermaidNested m o.
Proof.
  intros H1 H2 H3 H4 H5; unfold map_machine; split.
  - unfold toMermaid, toMermaid_lines, collect_list, preamble; cbn [digraph config_initial].
    rewrite map_fields_eq; cbn [edges children].
    rewrite flat_edges_map by assumption.
    rewrite (fold_left_map_ext _ (fun st c => collectAll (cfg_of o) c st)); [reflexivity|].
    apply Forall_forall; intros c _ y; apply collectAll_map; assumption.
  - unfold toMermaidNested, toMermaidNested_lines, process_list, preamble;
      cbn [digraph config_initial].
    rewrite map_fields_eq; cbn [edges children].
    rewrite nest_edges_map by assumption.
    rewrite (fold_left_map_ext _ (fun st c => processNode (cfg_of o) c 1 st)); [reflexivity|].
    apply Forall_forall; intros c _ y; apply processNode_map; assumption.
Qed.

(** Tags, exit actions and meta keys other than [invariants] never reach
    either output, for every machine and options. *)
Theorem outputs_ignore_unread_fields :
  forall m o,
    toMermaid (map_machine erase_unread id m) o = toMermaid m o /\
    toMermaidNested (map_machine erase_unread id m) o = toMermaidNested m o.
Proof.
  intros m o; apply outputs_map_fields; try reflexivity.
  intros i [d tg [mo|] en ex iv ini]; reflexivity.
Qed.

(** With [includeGuards: false], the guards of the machine do not matter. *)
Theorem guards_off_ignores_guards :
  forall m o, includeGuards o = Some false ->
    toMermaid (map_machine id erase_guard m) o = toMermaid m o /\
    toMermaidNested (map_machine id erase_guard m) o = toMermaidNested m o.
Proof.
  intros m o H; apply outputs_map_fields; try reflexivity.
  intros t; replace (incGuards (cfg_of o)) with false
    by (unfold cfg_of; cbn [incGuards]; rewrite H; reflexivity).
  reflexivity.
Qed.

Lemma guards_off_ignores_guards_witness :
  includeGuards (mkOptions None None (Some false) None None None None) = Some false /\
  toMermaid (map_machine id erase_guard fullMachine)
    (mkOptions None None (Some false) None None None None)
  = toMermaid fullMachine (mkOptions None None (Some false) None None None None) /\
  toMermaidNested (map_machine id erase_guard fullMachine)
    (mkOptions None None (Some false) None None None None)
  = toMermaidNested fullMachine (mkOptions None None (Some false) None None None None).
Proof. split; [reflexivity | apply guards_off_ignores_guards; reflexivity]. Defined.

(** With [includeActions: false], the transition actions do not matter. *)
Theorem actions_off_ignores_actions :
  forall m o, includeActions o = Some false ->
    toMermaid (map_machine id erase_actions m) o = toMermaid m o /\
    toMermaidNested (map_machine id erase_actions m) o = toMermaidNested m o.
Proof.
  intros m o H; apply outputs_map_fields; try reflexivity.
  intros t; replace (incActions (cfg_of o)) with false
    by (unfold cfg_of; cbn [incActions]; rewrite H; reflexivity).
  unfold formatTransitionLabel; cbn [actions]; destruct (actions t); reflexivity.
Qed.

Lemma actions_off_ignores_actions_witness :
  includeActions (mkOptions None None None (Some false) None None None) = Some false /\
  toMermaid (map_machine id erase_actions fullMachine)
    (mkOptions None None None (Some false) None None None)
  = toMermaid fullMachine (mkOptions None None None (Some false) None None None) /\
  toMermaidNested (map_machine id erase_actions fullMachine)
    (mkOptions None None None (Some false) None None None)
  = toMermaidNested fullMachine (mkOptions None None None (Some false) None None None).
Proof. split; [reflexivity | apply actions_off_ignores_actions; reflexivity]. Defined.

(** With [includeEntryActions: false], the entry actions do not matter. *)
Theorem entry_off_ignores_entry :
  forall m o, includeEntryActions o = Some false ->
    toMermaid (map_machine erase_entry id m) o = toMermaid m o /\
    toMermaidNested (map_machine erase_entry id m) o = toMermaidNested m o.
Proof.
  intros m o H; apply outputs_map_fields; try reflexivity.
  intros i sn; unfold state_label; replace (incEntry (cfg_of o)) with false
    by (unfold cfg_of; cbn [incEntry]; rewrite H; reflexivity).
  reflexivity.
Qed.

Lemma entry_off_ignores_entry_witness :
  includeEntryActions (mkOptions None None None None (Some false) None None) = Some false /\
  toMermaid (map_machine erase_entry id fullMachine)
    (mkOptions None None None None (Some false) None None)
  = toMermaid fullMachine (mkOptions None None None None (Some false) None None) /\
  toMermaidNested (map_machine erase_entry id fullMachine)
    (mkOptions None None None None (Some false) None None)
  = toMermaidNested fullMachine (mkOptions None None None None (Some false) None None).
Proof. split; [reflexivity | apply entry_off_ignores_entry; reflexivity]. Defined.

(** With [includeInvokes: false], the invoked actors do not matter. *)
Theorem invokes_off_ignores_invoke :
  forall m o, includeInvokes o = Some false ->
    toMermaid (map_machine erase_invoke id m) o = toMermaid m o /\
    toMermaidNested (map_machine erase_invoke id m) o = toMermaidNested m o.
Proof.
  intros m o H; apply outputs_map_fields; try reflexivity.
  intros i sn; unfold state_label; replace (incInvoke (cfg_of o)) with false
    by (unfold cfg_of; cbn [incInvoke]; rewrite H; reflexivity).
  reflexivity.
Qed.

Lemma invokes_off_ignores_invoke_witness :
  includeInvokes (mkOptions None None None None None (Some false) None) = Some false /\
  toMermaid (map_machine erase_invoke id fullMachine)
    (mkOptions None None None None None (Some false) None)
  = toMermaid fullMachine (mkOptions None None None None None (Some false) None) /\
  toMermaidNested (map_machine erase_invoke id fullMachine)
    (mkOptions None None None None None (Some false) None)
  = toMermaidNested fullMachine (mkOptions None None None None None (Some false) None).
Proof. split; [reflexivity | apply invokes_off_ignores_invoke; reflexivity]. Defined.

(** With [includeInvariants: false], the whole [meta] object does not matter. *)
Theorem invariants_off_ignores_meta :
  forall m o, includeInvariants o = Some false ->
    toMermaid (map_machine erase_meta id m) o = toMermaid m o /\
    toMermaidNested (map_machine erase_meta id m) o = toMermaidNested m o.
Proof.
  intros m o H; apply outputs_map_fields; try reflexivity.
  intros i sn; unfold state_label; replace (incInvariants (cfg_of o)) with false
    by (unfold cfg_of; cbn [incInvariants]; rewrite H; reflexivity).
  reflexivity.
Qed.

Lemma invariants_off_ignores_meta_witness :
  includeInvariants (mkOptions None None None None None None (Some false)) = Some false /\
  toMermaid (map_machine erase_meta id fullMachine)
    (mkOptions None None None None None None (Some false))
  = toMermaid fullMachine (mkOptions None None None None None None (Some false)) /\
  toMermaidNested (map_machine erase_meta id fullMachine)
    (mkOptions None None None None None None (Some false))
  = toMermaidNested fullMachine (mkOptions None None None None None None (Some false)).
Proof. split; [reflexivity | apply invariants_off_ignores_meta; reflexivity]. Defined.

(** ** Which edges the flat walker emits *)

Lemma edge_lines_app (a b : list line) :
  edge_lines (a ++ b) = edge_lines a ++ edge_lines b.
Proof. induction a as [|[] a IH]; simpl; try rewrite IH; reflexivity. Qed.

Lemma first_by_key_app key seen (l1 l2 : list edge) :
  first_by_key key seen (l1 ++ l2)
  = first_by_key key seen l1 ++ first_by_key key (keys_after key seen l1) l2.
Proof.
  revert seen; induction l1 as [|e l1 IH]; intros seen; simpl; auto.
  destruct (mem (key e) seen); simpl; rewrite IH; reflexivity.
Qed.

Lemma keys_after_app key seen (l1 l2 : list edge) :
  keys_after key seen (l1 ++ l2) = keys_after key (keys_after key seen l1) l2.
Proof.
  revert seen; induction l1 as [|e l1 IH]; intros seen; simpl; auto.
  destruct (mem (key e) seen); apply IH.
Qed.

Lemma first_by_key_nodup key (l : list edge) :
  forall seen,
    NoDup (map key (first_by_key key seen l)) /\
    (forall x, In x (map key (first_by_key key seen l)) -> ~ In x seen).
Proof.
  induction l as [|e l IH]; intros seen; simpl; [split; [constructor | tauto]|].
  destruct (mem (key e) seen) eqn:E; [apply IH|].
  destruct (IH (key e :: seen)) as [HN HD]; simpl; split.
  - constructor; [intros Hin; apply (HD _ Hin); left; reflexivity | exact HN].
  - intros x [<-|Hx]; [apply mem_false; exact E|].
    intros Hs; apply (HD x Hx); right; exact Hs.
Qed.

Lemma first_by_key_cover key (l : list edge) :
  forall seen e, In e l ->
    In (key e) seen \/ exists e', In e' (first_by_key key seen l) /\ key e' = key e.
Proof.
  induction l as [|e0 l IH]; intros seen e Hin; [destruct Hin|]; simpl.
  destruct (mem (key e0) seen) eqn:E.
  - destruct Hin as [<-|Hin]; [left; apply mem_spec; exact E | apply IH; exact Hin].
  - destruct Hin as [<-|Hin]; [right; exists e0; split; [left|]; reflexivity|].
    destruct (IH (key e0 :: seen) e Hin) as [[Hk|Hk]|[e' [H1 H2]]].
    + right; exists e0; split; [left; reflexivity | exact Hk].
    + left; exact Hk.
    + right; exists e'; split; [right; exact H1 | exact H2].
Qed.

Section FlatEdges.
Variable cfg : Cfg.

Lemma flat_edges_ok (es : list edge) :
  forall st,
    edge_lines (f_lines (flat_edges cfg es st))
      = edge_lines (f_lines st) ++ map (edge_row cfg) (first_by_key flat_key (seenEdges st) es) /\
    seenEdges (flat_edges cfg es st) = keys_after flat_key (seenEdges st) es.
Proof.
  induction es as [|e es IH]; intros st; simpl; [rewrite app_nil_r; auto|].
  destruct (IH (flat_edge cfg st e)) as [H1 H2]; rewrite H1, H2.
  unfold flat_edge; destruct (mem (flat_key e) (seenEdges st)); simpl; auto.
  rewrite edge_lines_app, <- app_assoc; auto.
Qed.

Lemma flat_state_edges (n : node) st :
  edge_lines (f_lines (flat_state cfg n st)) = edge_lines (f_lines st) /\
  seenEdges (flat_state cfg n st) = seenEdges st.
Proof.
  unfold flat_state; destruct (mem _ _); simpl; auto.
  rewrite edge_lines_app, app_nil_r; auto.
Qed.

Lemma collectAll_edges (n : node) :
  forall st,
    edge_lines (f_lines (collectAll cfg n st))
      = edge_lines (f_lines st)
        ++ map (edge_row cfg) (first_by_key flat_key (seenEdges st) (flat_map edges (preorder n))) /\
    seenEdges (collectAll cfg n st) = keys_after flat_key (seenEdges st) (flat_map edges (preorder n)).
Proof.
  induction n as [i sn es cs IH] using node_ind'; intros st.
  rewrite collectAll_eq; cbn [children edges preorder flat_map].
  destruct (flat_state_edges (Node i sn es cs) st) as [H0 H0'].
  destruct (flat_edges_ok es (flat_state cfg (Node i sn es cs) st)) as [H1 H2].
  rewrite H0, H0' in *.
  rewrite first_by_key_app, keys_after_app, map_app, app_assoc, <- H1, <- H2.
  generalize (flat_edges cfg es (flat_state cfg (Node i sn es cs) st)) as st'.
  clear H0 H0' H1 H2.
  induction IH as [|c cs Hc _ IHcs]; intros st'; simpl; [rewrite app_nil_r; auto|].
  destruct (Hc st') as [H3 H4]; destruct (IHcs (collectAll cfg c st')) as [H5 H6].
  rewrite H5, H6, H3, H4, flat_map_app, first_by_key_app, keys_after_app, map_app,
    app_assoc; auto.
Qed.
End FlatEdges.

(** toMermaid emits one edge line per dedup key [source:target:event], in
    the order it meets the edges (the root's own, then each node's own in
    pre-order): the first edge of each key, and every edge it meets has its
    key among them. *)
Theorem toMermaid_edge_lines :
  forall m o,
    edge_lines (toMermaid_lines m o)
      = map (edge_row (cfg_of o)) (first_by_key flat_key [] (flat_edge_order m)) /\
    NoDup (map flat_key (first_by_key flat_key [] (flat_edge_order m))) /\
    (forall e, In e (flat_edge_order m) ->
       exists e', In e' (first_by_key flat_key [] (flat_edge_order m)) /\ flat_key e' = flat_key e).
Proof.
  intros m o; split; [|split].
  - assert (Hpre : edge_lines (preamble m o) = [])
      by (unfold preamble; destruct (opt_truthy _), (opt_truthy _); reflexivity).
    unfold toMermaid_lines, flat_edge_order.
    set (st1 := flat_edges (cfg_of o) (edges (digraph m)) (mkFlatSt (preamble m o) [] [])).
    destruct (flat_edges_ok (cfg_of o) (edges (digraph m)) (mkFlatSt (preamble m o) [] []))
      as [H1 H2]; fold st1 in H1, H2; cbn [f_lines seenEdges] in H1, H2.
    rewrite first_by_key_app, map_app, <- H2.
    assert (Hl : forall cs st,
      edge_lines (f_lines (collect_list (cfg_of o) cs st))
        = edge_lines (f_lines st)
          ++ map (edge_row (cfg_of o))
               (first_by_key flat_key (seenEdges st) (flat_map edges (flat_map preorder cs)))).
    { unfold collect_list; induction cs as [|c cs IH]; intros st; simpl;
        [rewrite app_nil_r; reflexivity|].
      destruct (collectAll_edges (cfg_of o) c st) as [H3 H4].
      rewrite IH, H3, H4, flat_map_app, first_by_key_app, map_app, app_assoc; reflexivity. }
    rewrite Hl, H1, Hpre; reflexivity.
  - apply first_by_key_nodup.
  - intros e Hin; destruct (first_by_key_cover flat_key _ [] e Hin) as [[]|H]; exact H.
Qed.

(** ** What the nested walker emits *)

Lemma brackets_app (a b : list line) :
  brackets (a ++ b) = brackets a ++ brackets b.
Proof. induction a as [|[] a IH]; simpl; try rewrite IH; reflexivity. Qed.

Lemma matched_tree (n : node) :
  forall k s r, matched s (tree_brackets n k ++ r) = matched s r.
Proof.
  induction n as [i sn es cs IH] using node_ind'; intros k s r.
  destruct cs as [|c cs]; [reflexivity|].
  change (tree_brackets (Node i sn es (c :: cs)) k)
    with ((true, k) :: flat_map (fun c0 => tree_brackets c0 (S k)) (c :: cs) ++ [(false, k)]).
  cbn [app matched]; rewrite <- app_assoc.
  assert (Hl : forall l, Forall (fun n => forall k s r, matched s (tree_brackets n k ++ r)
                                                     = matched s r) l ->
            forall s', matched s' (flat_map (fun c0 => tree_brackets c0 (S k)) l
                                   ++ [(false, k)] ++ r)
                       = matched s' ([(false, k)] ++ r)).
  { intros l HF; induction HF as [|c' l Hc _ IHl]; intros s'; [reflexivity|].
    cbn [flat_map]; rewrite <- app_assoc, Hc; apply IHl. }
  rewrite Hl by exact IH; cbn [app matched]; rewrite Nat.eqb_refl; reflexivity.
Qed.

Lemma push_lines (l : line) st : n_lines (push l st) = n_lines st ++ [l].
Proof. reflexivity. Qed.

Section NestedLines.
Variable cfg : Cfg.

Lemma nest_edges_ok k (es : list edge) :
  forall st,
    edge_lines (n_lines (nest_edges cfg k es st))
      = edge_lines (n_lines st)
        ++ map (edge_row cfg) (first_by_key nest_key (processedEdges st) es) /\
    processedEdges (nest_edges cfg k es st) = keys_after nest_key (processedEdges st) es /\
    state_lines (n_lines (nest_edges cfg k es st)) = state_lines (n_lines st) /\
    brackets (n_lines (nest_edges cfg k es st)) = brackets (n_lines st).
Proof.
  induction es as [|e es IH]; intros st; simpl; [rewrite app_nil_r; auto|].
  destruct (IH (nest_edge cfg k st e)) as [H1 [H2 [H3 H4]]]; rewrite H1, H2, H3, H4.
  unfold nest_edge; destruct (mem (nest_key e) (processedEdges st)); simpl; auto.
  rewrite edge_lines_app, state_lines_app, brackets_app, <- app_assoc, !app_nil_r.
  auto.
Qed.

Lemma processNode_lines (n : node) :
  forall k st,
    state_lines (n_lines (processNode cfg n k st))
      = state_lines (n_lines st) ++ map (slabel cfg) (leaves n) /\
    brackets (n_lines (processNode cfg n k st)) = brackets (n_lines st) ++ tree_brackets n k /\
    edge_lines (n_lines (processNode cfg n k st))
      = edge_lines (n_lines st)
        ++ map (edge_row cfg) (first_by_key nest_key (processedEdges st) (nested_edges_of n)) /\
    processedEdges (processNode cfg n k st)
      = keys_after nest_key (processedEdges st) (nested_edges_of n).
Proof.
  induction n as [i sn es cs IH] using node_ind'; intros k st.
  rewrite processNode_eq; cbn [children node_id stateNode edges].
  destruct cs as [|c cs].
  - rewrite push_lines, state_lines_app, brackets_app, edge_lines_app; simpl.
    rewrite !app_nil_r; auto.
  - change (leaves (Node i sn es (c :: cs))) with (flat_map leaves (c :: cs)).
    change (tree_brackets (Node i sn es (c :: cs)) k)
      with ((true, k) :: flat_map (fun c0 => tree_brackets c0 (S k)) (c :: cs) ++ [(false, k)]).
    change (nested_edges_of (Node i sn es (c :: cs)))
      with (flat_map nested_edges_of (c :: cs) ++ es).
    set (st0 := if opt_truthy (initial sn)
                then push (LInitial (S k) (dflt (initial sn) [])) (push (LOpen k (getStateName i)) st)
                else push (LOpen k (getStateName i)) st).
    assert (H0 : state_lines (n_lines st0) = state_lines (n_lines st) /\
                 brackets (n_lines st0) = brackets (n_lines st) ++ [(true, k)] /\
                 edge_lines (n_lines st0) = edge_lines (n_lines st) /\
                 processedEdges st0 = processedEdges st).
    { unfold st0; destruct (opt_truthy (initial sn)); rewrite ?push_lines;
        rewrite ?state_lines_app, ?brackets_app, ?edge_lines_app; simpl;
        rewrite ?app_nil_r, <- ?app_assoc; auto. }
    assert (Hf : forall l st', Forall (fun n => forall k st,
        state_lines (n_lines (processNode cfg n k st))
          = state_lines (n_lines st) ++ map (slabel cfg) (leaves n) /\
        brackets (n_lines (processNode cfg n k st)) = brackets (n_lines st) ++ tree_brackets n k /\
        edge_lines (n_lines (processNode cfg n k st))
          = edge_lines (n_lines st)
            ++ map (edge_row cfg) (first_by_key nest_key (processedEdges st) (nested_edges_of n)) /\
        processedEdges (processNode cfg n k st)
          = keys_after nest_key (processedEdges st) (nested_edges_of n)) l ->
      let st'' := fold_left (fun st c => processNode cfg c (S k) st) l st' in
      state_lines (n_lines st'') = state_lines (n_lines st') ++ map (slabel cfg) (flat_map leaves l) /\
      brackets (n_lines st'')
        = brackets (n_lines st') ++ flat_map (fun c0 => tree_brackets c0 (S k)) l /\
      edge_lines (n_lines st'')
        = edge_lines (n_lines st')
          ++ map (edge_row cfg)
               (first_by_key nest_key (processedEdges st') (flat_map nested_edges_of l)) /\
      processedEdges st'' = keys_after nest_key (processedEdges st') (flat_map nested_edges_of l)).
    { intros l st' HF; revert st'; induction HF as [|c' l Hc _ IHl]; intros st'; simpl;
        [rewrite !app_nil_r; auto|].
      destruct (Hc (S k) st') as [A1 [A2 [A3 A4]]].
      destruct (IHl (processNode cfg c' (S k) st')) as [B1 [B2 [B3 B4]]].
      rewrite B1, B2, B3, B4, A1, A2, A3, A4, map_app, first_by_key_app, keys_after_app,
        map_app, !app_assoc; auto. }
    destruct (Hf (c :: cs) st0 IH) as [F1 [F2 [F3 F4]]]; clear Hf.
    set (st1 := fold_left (fun st c => processNode cfg c (S k) st) (c :: cs) st0) in *.
    destruct (nest_edges_ok (S k) es st1) as [E1 [E2 [E3 E4]]].
    set (st2 := nest_edges cfg (S k) es st1) in *.
    destruct H0 as [G1 [G2 [G3 G4]]].
    assert (Hc : state_lines (n_lines (push (LClose k) st2))
                   = state_lines (n_lines st) ++ map (slabel cfg) (flat_map leaves (c :: cs)) /\
                 brackets (n_lines (push (LClose k) st2))
                   = brackets (n_lines st)
                     ++ (true, k) :: flat_map (fun c0 => tree_brackets c0 (S k)) (c :: cs)
                     ++ [(false, k)] /\
                 edge_lines (n_lines (push (LClose k) st2))
                   = edge_lines (n_lines st)
                     ++ map (edge_row cfg)
                          (first_by_key nest_key (processedEdges st)
                             (flat_map nested_edges_of (c :: cs) ++ es)) /\
                 processedEdges (push (LClose k) st2)
                   = keys_after nest_key (processedEdges st)
                       (flat_map nested_edges_of (c :: cs) ++ es)).
    { rewrite push_lines, state_lines_app, brackets_app, edge_lines_app; cbn [processedEdges push].
      rewrite E1, E2, E3, E4, F1, F2, F3, F4, G1, G2, G3, G4, first_by_key_app,
        keys_after_app, map_app; simpl.
      rewrite !app_nil_r, <- !app_assoc; auto. }
    destruct (getDescription _) as [d|]; [destruct (truthy d)|]; try exact Hc.
    rewrite push_lines, state_lines_app, brackets_app, edge_lines_app; simpl.
    rewrite !app_nil_r; exact Hc.
Qed.
End NestedLines.

Lemma process_list_lines cfg (cs : list node) k :
  forall st,
    state_lines (n_lines (process_list cfg cs k st))
      = state_lines (n_lines st) ++ map (slabel cfg) (flat_map leaves cs) /\
    brackets (n_lines (process_list cfg cs k st))
      = brackets (n_lines st) ++ flat_map (fun c => tree_brackets c k) cs /\
    edge_lines (n_lines (process_list cfg cs k st))
      = edge_lines (n_lines st)
        ++ map (edge_row cfg) (first_by_key nest_key (processedEdges st) (flat_map nested_edges_of cs)) /\
    processedEdges (process_list cfg cs k st)
      = keys_after nest_key (processedEdges st) (flat_map nested_edges_of cs).
Proof.
  unfold process_list; induction cs as [|c cs IH]; intros st; simpl; [rewrite !app_nil_r; auto|].
  destruct (processNode_lines cfg c k st) as [A1 [A2 [A3 A4]]].
  destruct (IH (processNode cfg c k st)) as [B1 [B2 [B3 B4]]].
  rewrite B1, B2, B3, B4, A1, A2, A3, A4, map_app, first_by_key_app, keys_after_app,
    map_app, !app_assoc; auto.
Qed.

Lemma toMermaidNested_lines_parts m o :
  state_lines (toMermaidNested_lines m o)
    = map (slabel (cfg_of o)) (flat_map leaves (children (digraph m))) /\
  brackets (toMermaidNested_lines m o)
    = flat_map (fun c => tree_brackets c 1) (children (digraph m)) /\
  edge_lines (toMermaidNested_lines m o)
    = map (edge_row (cfg_of o)) (first_by_key nest_key [] (nested_edge_order m)).
Proof.
  assert (Hpre : state_lines (preamble m o) = [] /\ brackets (preamble m o) = [] /\
                 edge_lines (preamble m o) = [])
    by (unfold preamble; destruct (opt_truthy _), (opt_truthy _); repeat split).
  destruct Hpre as [P1 [P2 P3]].
  unfold toMermaidNested_lines, nested_edge_order.
  destruct (process_list_lines (cfg_of o) (children (digraph m)) 1 (mkNestSt (preamble m o) []))
    as [A1 [A2 [A3 A4]]]; cbn [n_lines processedEdges] in A1, A2, A3, A4.
  set (st1 := process_list (cfg_of o) (children (digraph m)) 1 (mkNestSt (preamble m o) [])) in *.
  destruct (nest_edges_ok (cfg_of o) 1 (edges (digraph m)) st1) as [E1 [E2 [E3 E4]]].
  rewrite E1, E3, E4, A1, A2, A3, A4, P1, P2, P3, first_by_key_app, map_app.
  repeat split.
Qed.

(** toMermaidNested gives every leaf state its own state line, in
    pre-order, with no dedup by short name (unlike toMermaid); compound
    states get no state line. *)
Theorem toMermaidNested_state_lines :
  forall m o,
    state_lines (toMermaidNested_lines m o)
      = map (fun n => (getStateName (node_id n), state_label (cfg_of o) n))
            (flat_map leaves (children (digraph m))).
Proof. intros m o; apply (toMermaidNested_lines_parts m o). Qed.

(** The [state ... {] and [}] lines of toMermaidNested always nest: each
    [}] closes the innermost open container, at its indentation, and none
    is left open. *)
Theorem toMermaidNested_brackets_matched :
  forall m o, matched [] (brackets (toMermaidNested_lines m o)) = true.
Proof.
  intros m o; destruct (toMermaidNested_lines_parts m o) as [_ [H _]]; rewrite H; clear H.
  induction (children (digraph m)) as [|c cs IH]; [reflexivity|].
  cbn [flat_map]; rewrite matched_tree; exact IH.
Qed.

(** toMermaidNested emits the compound states' edges only, children before
    parent and the root's last, one line per full-id key
    [source->target:event]; a leaf's own edges are never looked at. *)
Theorem toMermaidNested_edge_lines :
  forall m o,
    edge_lines (toMermaidNested_lines m o)
      = map (edge_row (cfg_of o)) (first_by_key nest_key [] (nested_edge_order m)) /\
    NoDup (map nest_key (first_by_key nest_key [] (nested_edge_order m))).
Proof.
  intros m o; split; [apply (toMermaidNested_lines_parts m o) | apply first_by_key_nodup].
Qed.
